(** * colprint: column formatting programs compiled from field specifications

    A shallow embedding of the Go package [colprint] (registry.go,
    compiler.go, helpers.go, colprint.go) together with the properties of
    its specification compiler and row renderer.

    Conventions of the embedding:
    - a Go [string] is a [string] (a sequence of bytes), a [[]byte] is a
      [list ascii]; [len] is the number of bytes;
    - a Go [int] is a [Z] (64-bit platform);
    - Go maps are [gmap]s; the unspecified iteration order of [range] over a
      map is an explicit choice sequence threaded through the compiler;
    - a run-time panic (nil function value, slice bound out of range) and
      the compilation errors are constructors of [outcome];
    - recursion of [parseSpec] through the defaults map is not structural:
      it is bounded by a depth budget, and exhausting the budget is the
      outcome [OutOfFuel];
    - where sharing matters (a program built from a registry that is
      mutated afterwards), the registry's maps, the variables captured by
      the writer closures and the backing arrays of the program's slices
      are objects of one heap, read and written by address. *)

From Stdlib Require Import ZArith Ascii String DecimalString.
From stdpp Require Import gmap strings list fin_maps relations sorting.

Open Scope string_scope.
Open Scope list_scope.
Open Scope Z_scope.

Abbreviation bytes := (list ascii).

(** ** Outcomes of compilation and rendering *)

(** The error values built with [fmt.Errorf] in compiler.go, one constructor
    per format string, keeping the arguments and the wrapped error. *)
Inductive error : Type :=
  | EmptySpec                                     (* "empty field specification" *)
  | NoFields                                      (* "no fields specified" *)
  | UnknownCollection (name : string)             (* "unknown collection: @%s" *)
  | UnknownField (fieldName : string)             (* "unknown field: %q" *)
  | InvalidWidth (w : Z) (fieldName : string)     (* "invalid width %d for field %q" *)
  | EmptyWidth (tok : string)                     (* "empty width in %q" *)
  | InvalidWidthStr (widthStr tok : string)       (* "invalid width %q in %q" *)
  | ExpandingDefault (e : error)                  (* "expanding @default: %w" *)
  | Expanding (name : string) (e : error).        (* "expanding @%s: %w" *)

Inductive outcome (A : Type) : Type :=
  | Ok (a : A)
  | Err (e : error)
  | Panic
  | OutOfFuel.

Arguments Ok {A} a.
Arguments Err {A} e.
Arguments Panic {A}.
Arguments OutOfFuel {A}.

#[global] Instance outcome_bind : MBind outcome := fun A B k m =>
  match m with
  | Ok a => k a
  | Err e => Err e
  | Panic => Panic
  | OutOfFuel => OutOfFuel
  end.

#[global] Instance outcome_ret : MRet outcome := fun A a => Ok a.

(** ** The parts of the Go standard library used by the package *)

Module GoStrings.

(** [strings.Split(s, ",")]: always at least one piece. *)
Fixpoint Split (s : string) : list string :=
  match s with
  | EmptyString => [EmptyString]
  | String c s' =>
      if Ascii.eqb c ","%char then EmptyString :: Split s'
      else match Split s' with
           | h :: t => String c h :: t
           | [] => [String c EmptyString]
           end
  end.

(** [l] is the UTF-8 encoding of one white-space rune, in the sense of
    [unicode.IsSpace]. *)
Definition isSpaceRune (l : list N) : bool :=
  match l with
  | [b0] => ((9 <=? b0) && (b0 <=? 13) || (b0 =? 32))%N
  | [b0; b1] => ((b0 =? 194) && ((b1 =? 133) || (b1 =? 160)))%N  (* U+0085, U+00A0 *)
  | [b0; b1; b2] =>
      ((b0 =? 225) && (b1 =? 154) && (b2 =? 128)                 (* U+1680 *)
       || (b0 =? 226) && (b1 =? 128)
          && ((128 <=? b2) && (b2 <=? 138)                       (* U+2000..U+200A *)
              || (b2 =? 168) || (b2 =? 169) || (b2 =? 175))      (* U+2028, U+2029, U+202F *)
       || (b0 =? 226) && (b1 =? 129) && (b2 =? 159)              (* U+205F *)
       || (b0 =? 227) && (b1 =? 128) && (b2 =? 128))%N           (* U+3000 *)
  | _ => false
  end.

(** Byte length of the white-space rune at the head of [l], or [0]. *)
Definition leadingSpace (l : list N) : nat :=
  if isSpaceRune (take 1 l) then 1%nat
  else if isSpaceRune (take 2 l) then 2%nat
  else if isSpaceRune (take 3 l) then 3%nat
  else 0%nat.

(** The same at the end of a string, given its bytes in reverse order. *)
Definition trailingSpace (l : list N) : nat :=
  if isSpaceRune (rev (take 1 l)) then 1%nat
  else if isSpaceRune (rev (take 2 l)) then 2%nat
  else if isSpaceRune (rev (take 3 l)) then 3%nat
  else 0%nat.

Fixpoint trimWith (f : list N -> nat) (n : nat) (l : bytes) : bytes :=
  match n with
  | O => l
  | S n' =>
      match f (N_of_ascii <$> take 3 l) with
      | O => l
      | k => trimWith f n' (drop k l)
      end
  end.

(** [strings.TrimSpace]: strips the leading, then the trailing white-space
    runes. *)
Definition TrimSpace (s : string) : string :=
  let l := list_ascii_of_string s in
  let l1 := trimWith leadingSpace (length l) l in
  let r := rev l1 in
  string_of_list_ascii (rev (trimWith trailingSpace (length r) r)).

(** [strings.HasPrefix(s, "@")] *)
Definition HasPrefixAt (s : string) : bool :=
  match s with
  | String c _ => Ascii.eqb c "@"%char
  | EmptyString => false
  end.

(** [s[1:]] for a non-empty [s]. *)
Definition tail1 (s : string) : string :=
  match s with
  | String _ s' => s'
  | EmptyString => EmptyString
  end.

(** [strings.IndexByte(s, c)], with [None] for [-1]. *)
Fixpoint IndexByte (s : string) (c : ascii) : option nat :=
  match s with
  | EmptyString => None
  | String a s' =>
      if Ascii.eqb a c then Some O else S <$> IndexByte s' c
  end.

End GoStrings.

Module GoStrconv.

Definition digit (c : ascii) : option Z :=
  let n := Z.of_N (N_of_ascii c) in
  if (48 <=? n) && (n <=? 57) then Some (n - 48) else None.

Fixpoint digits (acc : Z) (s : string) : option Z :=
  match s with
  | EmptyString => Some acc
  | String c s' =>
      match digit c with
      | Some d => digits (10 * acc + d) s'
      | None => None
      end
  end.

Definition minInt : Z := - 2 ^ 63.
Definition maxInt : Z := 2 ^ 63 - 1.

(** [strconv.Atoi] on a 64-bit platform: an optional sign, at least one
    decimal digit, nothing else, and a value that fits an [int]; [None]
    stands for a non-nil error. *)
Definition Atoi (s : string) : option Z :=
  let '(neg, body) :=
    match s with
    | String c s' =>
        if Ascii.eqb c "-"%char then (true, s')
        else if Ascii.eqb c "+"%char then (false, s')
        else (false, s)
    | EmptyString => (false, s)
    end in
  match body with
  | EmptyString => None
  | _ =>
      match digits 0 body with
      | Some n =>
          let v := if neg then - n else n in
          if (minInt <=? v) && (v <=? maxInt) then Some v else None
      | None => None
      end
  end.

(** [int64(x)] for an [int] [x]; values are kept in the 64-bit range. *)
Definition int64 (x : Z) : Z := (x + 2 ^ 63) mod 2 ^ 64 - 2 ^ 63.

(** [strconv.AppendInt(dst, i, 10)] *)
Definition AppendInt (dst : bytes) (i : Z) : bytes :=
  dst ++ list_ascii_of_string (NilZero.string_of_int (Z.to_int i)).

End GoStrconv.

(** What the embedding leaves abstract: the [float64] type with
    [strconv.AppendFloat], and [strings.ToLower] (Unicode case mapping). *)
Class GoLib : Type := {
  float64 : Type;
  AppendFloat : bytes -> float64 -> ascii -> Z -> Z -> bytes;
  ToLower : string -> string
}.

(** Go's map iteration order is unspecified.  A [range] over a map that stops
    at its first element may see any entry: the entry is picked by the next
    number of the choice sequence [ch], which is consumed. *)
Abbreviation choices := (list nat).

Definition rangeFirst {V : Type} (m : gmap string V) (ch : choices)
  : option V * choices :=
  let l := map_to_list m in
  match ch with
  | [] => (snd <$> head l, [])
  | n :: ch' => (snd <$> l !! (n mod length l)%nat, ch')
  end.

(** [for i, x := range l { s = body(i, x, s) }], stopping at the first
    outcome that is not [Ok]. *)
Fixpoint rangeFrom {A St : Type} (i : nat) (l : list A)
    (body : nat -> A -> St -> outcome St) (s : St) : outcome St :=
  match l with
  | [] => Ok s
  | x :: l' => s' ← body i x s; rangeFrom (S i) l' body s'
  end.

Definition forRange {A St : Type} (l : list A)
    (body : nat -> A -> St -> outcome St) (s : St) : outcome St :=
  rangeFrom 0 l body s.

(** [for k := 0; k < n; k++ { dst = append(dst, c) }] *)
Fixpoint appendN (dst : bytes) (c : ascii) (n : nat) : bytes :=
  match n with
  | O => dst
  | S n' => appendN (dst ++ [c]) c n'
  end.

Definition len (s : string) : Z := Z.of_nat (String.length s).
Definition blen (b : bytes) : Z := Z.of_nat (length b).

(** ** helpers.go *)

(** [padBytesLeft] appends [val] to [dst], padding or truncating to [width].
    The slice expression [val[:width]] panics for a negative [width]. *)
Definition padBytesLeft (dst val : bytes) (width : Z) : outcome bytes :=
  if blen val >? width then
    if width <? 0 then Panic
    else Ok (dst ++ take (Z.to_nat width) val)
  else
    let dst := dst ++ val in
    Ok (appendN dst " "%char (Z.to_nat (width - blen val))).

Definition padLeft (dst : bytes) (s : string) (width : Z) : outcome bytes :=
  padBytesLeft dst (list_ascii_of_string s) width.

(** ** colprint.go: kinds, fields, options, programs *)

Definition KindString : Z := 1.
Definition KindInt : Z := 2.
Definition KindFloat : Z := 3.
Definition KindCustom : Z := 4.

(** [type Options struct] *)
Record Options : Type := {
  Separator : string;
  NoPadding : bool;
  PadLastColumn : bool;
  NoHeader : bool;
  NoUnderline : bool
}.

(** The error value of an [io.Writer]. *)
Inductive ioerror : Type := IOError (msg : string).

(** [io.Writer]: a sink with one blocking write operation that can report an
    error; [W] is the state of the sink. *)
Class Writer (W : Type) : Type :=
  Write : W -> bytes -> W * option ioerror.

(** A sink that records every write call it receives. *)
#[global] Instance logWriter : Writer (list bytes) :=
  fun w b => (w ++ [b], None).

(** [sort.Strings]: ascending order of Go's string comparison, which is
    byte-wise lexicographic.  The lists sorted below are the keys of a map
    and hold no duplicates, so every sorting algorithm gives the same
    result. *)
Definition stringLe (a b : string) : Prop := String.leb a b = true.

#[global] Instance stringLe_dec : RelDecision stringLe :=
  fun a b => decide (String.leb a b = true).

Definition sortStrings (l : list string) : list string :=
  merge_sort stringLe l.

Section Colprint.

Context `{GoLib} {T : Type}.

(** [type Field[T any] struct]; a [nil] extractor is [None]. *)
Record Field : Type := {
  Name : string;
  Display : string;
  Description : string;
  Category : string;
  Width : Z;
  Kind : Z;
  Precision : Z;
  GetString : option (T -> string);
  GetInt : option (T -> Z);
  GetFloat : option (T -> float64);
  GetCustom : option (bytes -> T -> bytes)
}.

(** The zero value of [Field[T]]. *)
Definition zeroField : Field :=
  {| Name := ""; Display := ""; Description := ""; Category := "";
     Width := 0; Kind := 0; Precision := 0;
     GetString := None; GetInt := None; GetFloat := None; GetCustom := None |}.

(** [field.Width = width] *)
Definition setWidth (f : Field) (w : Z) : Field :=
  {| Name := Name f; Display := Display f; Description := Description f;
     Category := Category f; Width := w; Kind := Kind f;
     Precision := Precision f; GetString := GetString f;
     GetInt := GetInt f; GetFloat := GetFloat f; GetCustom := GetCustom f |}.

(** [type compiledCol[T any] struct]: [write line v tmp] returns the new
    contents of the [line] and [tmp] buffers. *)
Record compiledCol : Type := {
  width : Z;
  write : bytes -> T -> bytes -> outcome (bytes * bytes)
}.

(** [type Program[T any] struct] *)
Record Program : Type := {
  header : bytes;
  underline : bytes;
  separator : bytes;
  columns : list compiledCol
}.

(** ** registry.go *)

(** [type Registry[T any] struct] *)
Record Registry : Type := {
  fields : gmap string Field;
  index : gmap string string;
  collections : gmap string (list string);
  defaults : gmap string string;
  categories : gmap string (list string)
}.

Definition NewRegistry : Registry :=
  {| fields := ∅; index := ∅; collections := ∅; defaults := ∅;
     categories := ∅ |}.

Definition DefineCollection (name defaultSpec : string) (fs : list string)
    (r : Registry) : Registry :=
  {| fields := fields r; index := index r;
     collections := <[name := fs]> (collections r);
     defaults := <[name := defaultSpec]> (defaults r);
     categories := categories r |}.

Definition SetDefaults (collectionName spec : string) (r : Registry) : Registry :=
  {| fields := fields r; index := index r; collections := collections r;
     defaults := <[collectionName := spec]> (defaults r);
     categories := categories r |}.

(** [get] retrieves a field by name: exact match first, then through the
    lower-case index. *)
Definition get (r : Registry) (name : string) : option Field :=
  match fields r !! name with
  | Some f => Some f
  | None =>
      match index r !! ToLower name with
      | Some canonical => Some (default zeroField (fields r !! canonical))
      | None => None
      end
  end.

(** [type FieldBuilder[T any] struct]; the registry it points to is the
    registry argument of [FieldBuilder_Register]. *)
Record FieldBuilder : Type := { field : Field }.

Definition Registry_Field (name display description : string) : FieldBuilder :=
  {| field := {| Name := name; Display := display; Description := description;
                 Category := ""; Width := 10; Kind := 0; Precision := 0;
                 GetString := None; GetInt := None; GetFloat := None;
                 GetCustom := None |} |}.

Definition FieldBuilder_Width (w : Z) (b : FieldBuilder) : FieldBuilder :=
  {| field := setWidth (field b) w |}.

Definition FieldBuilder_Category (cat : string) (b : FieldBuilder) : FieldBuilder :=
  let f := field b in
  {| field := {| Name := Name f; Display := Display f;
                 Description := Description f; Category := cat;
                 Width := Width f; Kind := Kind f; Precision := Precision f;
                 GetString := GetString f; GetInt := GetInt f;
                 GetFloat := GetFloat f; GetCustom := GetCustom f |} |}.

Definition FieldBuilder_String (fn : T -> string) (b : FieldBuilder) : FieldBuilder :=
  let f := field b in
  {| field := {| Name := Name f; Display := Display f;
                 Description := Description f; Category := Category f;
                 Width := Width f; Kind := KindString; Precision := Precision f;
                 GetString := Some fn; GetInt := GetInt f;
                 GetFloat := GetFloat f; GetCustom := GetCustom f |} |}.

Definition FieldBuilder_Int (fn : T -> Z) (b : FieldBuilder) : FieldBuilder :=
  let f := field b in
  {| field := {| Name := Name f; Display := Display f;
                 Description := Description f; Category := Category f;
                 Width := Width f; Kind := KindInt; Precision := Precision f;
                 GetString := GetString f; GetInt := Some fn;
                 GetFloat := GetFloat f; GetCustom := GetCustom f |} |}.

Definition FieldBuilder_Float (precision : Z) (fn : T -> float64)
    (b : FieldBuilder) : FieldBuilder :=
  let f := field b in
  {| field := {| Name := Name f; Display := Display f;
                 Description := Description f; Category := Category f;
                 Width := Width f; Kind := KindFloat; Precision := precision;
                 GetString := GetString f; GetInt := GetInt f;
                 GetFloat := Some fn; GetCustom := GetCustom f |} |}.

Definition FieldBuilder_Custom (fn : bytes -> T -> bytes) (b : FieldBuilder)
    : FieldBuilder :=
  let f := field b in
  {| field := {| Name := Name f; Display := Display f;
                 Description := Description f; Category := Category f;
                 Width := Width f; Kind := KindCustom; Precision := Precision f;
                 GetString := GetString f; GetInt := GetInt f;
                 GetFloat := GetFloat f; GetCustom := Some fn |} |}.

(** [Register] adds the builder's field to the registry (last write wins). *)
Definition FieldBuilder_Register (b : FieldBuilder) (r : Registry) : Registry :=
  let name := Name (field b) in
  let cat := Category (field b) in
  let cat := if String.eqb cat "" then "General" else cat in
  {| fields := <[name := field b]> (fields r);
     index := <[ToLower name := name]> (index r);
     collections := collections r;
     defaults := defaults r;
     categories :=
       <[cat := default [] (categories r !! cat) ++ [name]]> (categories r) |}.

(** ** compiler.go *)

(** [parseFieldSpec] parses a single field token ([name] or [name:width])
    into [(name, width, hasWidth)]. *)
Definition parseFieldSpec (tok : string) : outcome (string * Z * bool) :=
  match GoStrings.IndexByte tok ":"%char with
  | None => Ok (GoStrings.TrimSpace tok, 0, false)
  | Some idx =>
      let name := GoStrings.TrimSpace (substring 0 idx tok) in
      let widthStr :=
        GoStrings.TrimSpace
          (substring (idx + 1) (String.length tok - (idx + 1)) tok) in
      if String.eqb widthStr "" then Err (EmptyWidth tok)
      else
        match GoStrconv.Atoi widthStr with
        | None => Err (InvalidWidthStr widthStr tok)
        | Some w => Ok (name, w, true)
        end
  end.

(** The token loop of [parseSpec]; [rec] is the recursive call
    [parseSpec(reg, defSpec)], [fs] the accumulated [fields]. *)
Fixpoint parseTokens
    (rec : string -> choices -> outcome (list Field * choices))
    (reg : Registry) (tokens : list string) (fs : list Field) (ch : choices)
    : outcome (list Field * choices) :=
  match tokens with
  | [] => Ok (fs, ch)
  | tok :: rest =>
      let tok := GoStrings.TrimSpace tok in
      if String.eqb tok "" then parseTokens rec reg rest fs ch
      else if GoStrings.HasPrefixAt tok then
        let name := GoStrings.tail1 tok in
        if String.eqb name "default" then
          (* for _, defSpec := range reg.defaults { ...; break } *)
          match rangeFirst (defaults reg) ch with
          | (Some defSpec, ch) =>
              match rec defSpec ch with
              | Ok (expanded, ch) => parseTokens rec reg rest (fs ++ expanded) ch
              | Err e => Err (ExpandingDefault e)
              | Panic => Panic
              | OutOfFuel => OutOfFuel
              end
          | (None, ch) => parseTokens rec reg rest fs ch
          end
        else
          match defaults reg !! name with
          | Some defSpec =>
              match rec defSpec ch with
              | Ok (expanded, ch) => parseTokens rec reg rest (fs ++ expanded) ch
              | Err e => Err (Expanding name e)
              | Panic => Panic
              | OutOfFuel => OutOfFuel
              end
          | None => Err (UnknownCollection name)
          end
      else
        r ← parseFieldSpec tok;
        let '(fieldName, w, hasWidth) := (r : string * Z * bool) in
        match get reg fieldName with
        | None => Err (UnknownField fieldName)
        | Some f =>
            if hasWidth then
              if w <=? 0 then Err (InvalidWidth w fieldName)
              else parseTokens rec reg rest (fs ++ [setWidth f w]) ch
            else parseTokens rec reg rest (fs ++ [f]) ch
        end
  end.

(** [parseSpec] parses a field specification string; [fuel] bounds the
    depth of the recursion through [@default] and [@collection]. *)
Fixpoint parseSpec (fuel : nat) (reg : Registry) (spec : string)
    (ch : choices) : outcome (list Field * choices) :=
  match fuel with
  | O => OutOfFuel
  | S fuel' =>
      parseTokens (parseSpec fuel' reg) reg (GoStrings.Split spec) [] ch
  end.

(** The padding policy of column [i] out of [n]:
    [opts.NoPadding || (isLast && !opts.PadLastColumn)]. *)
Definition noPadAt (noPadding padLast : bool) (n : nat) (i : nat) : bool :=
  let lastIdx := Z.of_nat n - 1 in
  let isLast := Z.of_nat i =? lastIdx in
  noPadding || (isLast && negb padLast).

(** [buildHeader] constructs the header line. *)
Definition buildHeader (fs : list Field) (sep : string)
    (noPadding padLast : bool) : outcome bytes :=
  forRange fs (fun i f buf =>
    let buf := if (0 <? i)%nat then buf ++ list_ascii_of_string sep else buf in
    if noPadAt noPadding padLast (length fs) i then
      let display := Display f in
      display ← (if len display >? Width f then
                   if Width f <? 0 then Panic
                   else Ok (substring 0 (Z.to_nat (Width f)) display)
                 else Ok display);
      Ok (buf ++ list_ascii_of_string display)
    else padLeft buf (Display f) (Width f)) [].

(** [buildUnderline] creates an underline matching the header. *)
Definition buildUnderline (hd : bytes) : bytes :=
  (fun ch => if Ascii.eqb ch " "%char then " "%char else "-"%char) <$> hd.

(** [makeWriter] creates the writer closure for a field. *)
Definition makeWriter (f : Field) (noPad : bool) : compiledCol :=
  if Kind f =? KindString then
    {| width := Width f;
       write := fun line v tmp =>
         match GetString f with
         | None => Panic
         | Some getString =>
             let s := getString v in
             line ← padLeft line s (Width f);
             Ok (line, tmp)
         end |}
  else if Kind f =? KindInt then
    {| width := Width f;
       write := fun line v tmp =>
         let tmp : bytes := [] in
         match GetInt f with
         | None => Panic
         | Some getInt =>
             let tmp := GoStrconv.AppendInt tmp (GoStrconv.int64 (getInt v)) in
             line ← padBytesLeft line tmp (Width f);
             Ok (line, tmp)
         end |}
  else if Kind f =? KindFloat then
    let prec := Precision f in
    let prec := if prec <? 0 then 2 else prec in
    {| width := Width f;
       write := fun line v tmp =>
         let tmp : bytes := [] in
         match GetFloat f with
         | None => Panic
         | Some getFloat =>
             let tmp := AppendFloat tmp (getFloat v) "f"%char prec 64 in
             line ← padBytesLeft line tmp (Width f);
             Ok (line, tmp)
         end |}
  else if Kind f =? KindCustom then
    {| width := Width f;
       write := fun line v tmp =>
         let tmp : bytes := [] in
         match GetCustom f with
         | None => Panic
         | Some getCustom =>
             let tmp := getCustom tmp v in
             line ← padBytesLeft line tmp (Width f);
             Ok (line, tmp)
         end |}
  else
    {| width := Width f;
       write := fun line _ tmp =>
         Ok (appendN line " "%char (Z.to_nat (Width f)), tmp) |}.

(** [CompileWithOptions] creates a program with custom options. *)
Definition CompileWithOptions (fuel : nat) (reg : Registry) (spec : string)
    (opts : Options) (ch : choices) : outcome Program :=
  if String.eqb spec "" then Err EmptySpec
  else
    r ← parseSpec fuel reg spec ch;
    let fs := (r : list Field * choices).1 in
    if (length fs =? 0)%nat then Err NoFields
    else
      let sep := Separator opts in
      hd ← (if negb (NoHeader opts)
            then buildHeader fs sep (NoPadding opts) (PadLastColumn opts)
            else Ok []);
      let ul := if negb (NoUnderline opts) then buildUnderline hd else [] in
      Ok {| header := hd;
            underline := ul;
            separator := list_ascii_of_string sep;
            columns :=
              imap (fun i f =>
                      makeWriter f
                        (noPadAt (NoPadding opts) (PadLastColumn opts)
                           (length fs) i)) fs |}.

Definition defaultOptions : Options :=
  {| Separator := "  "; NoPadding := false; PadLastColumn := false;
     NoHeader := false; NoUnderline := false |}.

(** [Compile] creates a program from a field specification, with two
    spaces between columns. *)
Definition Compile (fuel : nat) (reg : Registry) (spec : string)
    (ch : choices) : outcome Program :=
  CompileWithOptions fuel reg spec defaultOptions ch.

(** ** colprint.go: program execution *)

Definition newline : ascii := "010"%char.

(** [WriteHeader]: the new [line] buffer, the sink after one write, and
    the error of that write. *)
Definition WriteHeader {W : Type} `{Writer W} (p : Program) (w : W)
    (line : bytes) : bytes * W * option ioerror :=
  let line := [] ++ header p in
  let line := line ++ [newline] in
  let '(w, err) := Write w line in
  (line, w, err).

Definition WriteUnderline {W : Type} `{Writer W} (p : Program) (w : W)
    (line : bytes) : bytes * W * option ioerror :=
  let line := [] ++ underline p in
  let line := line ++ [newline] in
  let '(w, err) := Write w line in
  (line, w, err).

(** [WriteRow] formats and writes a single row to [w]; the result holds
    the [tmp] and [line] buffers after the call, the sink and the error of
    the write. *)
Definition WriteRow {W : Type} `{Writer W} (p : Program) (w : W) (v : T)
    (tmp line : bytes) : outcome (bytes * bytes * W * option ioerror) :=
  let line : bytes := [] in
  r ← forRange (columns p) (fun i c '(line, tmp) =>
      let line := if (0 <? i)%nat then line ++ separator p else line in
      write c line v tmp) (line, tmp);
  let '(line, tmp) := (r : bytes * bytes) in
  let line := line ++ [newline] in
  let '(w, err) := Write w line in
  Ok (tmp, line, w, err).

Definition HeaderString (p : Program) : string :=
  string_of_list_ascii (header p).

(** [FormatRow] formats a row and returns it as a string, with the [tmp]
    and [line] buffers after the call. *)
Definition FormatRow (p : Program) (v : T) (tmp line : bytes)
    : outcome (string * bytes * bytes) :=
  let line : bytes := [] in
  r ← forRange (columns p) (fun i c '(line, tmp) =>
      let line := if (0 <? i)%nat then line ++ separator p else line in
      write c line v tmp) (line, tmp);
  let '(line, tmp) := (r : bytes * bytes) in
  Ok (string_of_list_ascii line, tmp, line).

(** ** Notions used to state the properties *)

(** The value a column of kind String, Int, Float or Custom formats for
    the record [v], before padding or truncation: what the writer closure
    of [makeWriter] hands to [padLeft] or [padBytesLeft].  [None] when
    the extractor of the kind is nil or the kind is unknown. *)
Definition fieldValue (f : Field) (v : T) : option bytes :=
  if Kind f =? KindString then
    (fun g => list_ascii_of_string (g v)) <$> GetString f
  else if Kind f =? KindInt then
    (fun g => GoStrconv.AppendInt [] (GoStrconv.int64 (g v))) <$> GetInt f
  else if Kind f =? KindFloat then
    (fun g => AppendFloat [] (g v) "f"%char
                (if Precision f <? 0 then 2 else Precision f) 64)
      <$> GetFloat f
  else if Kind f =? KindCustom then
    (fun g => g [] v) <$> GetCustom f
  else None.

(** Right-trimming of trailing ASCII spaces. *)
Fixpoint trimRightSpaces (b : bytes) : bytes :=
  match b with
  | [] => []
  | c :: b' =>
      match trimRightSpaces b' with
      | [] => if Ascii.eqb c " "%char then [] else [c]
      | t => c :: t
      end
  end.

(** The three errors that report an invalid width. *)
Definition isInvalidWidth (e : error) : Prop :=
  match e with
  | InvalidWidth _ _ | EmptyWidth _ | InvalidWidthStr _ _ => True
  | _ => False
  end.

(** An outcome other than exhaustion of the recursion budget. *)
Definition terminated {A : Type} (o : outcome A) : Prop :=
  match o with
  | OutOfFuel => False
  | _ => True
  end.

(** The outcome of [parseSpec] without the rest of the choice sequence. *)
Definition dropChoices {A : Type} (o : outcome (A * choices)) : outcome A :=
  r ← o; Ok r.1.

(** The trimmed tokens of a specification string. *)
Definition tokensOf (spec : string) : list string :=
  GoStrings.TrimSpace <$> GoStrings.Split spec.

(** Token [tok] is a reference that [parseSpec] may expand to the default
    spec registered under [k]: [@k] for a registered [k] other than
    [default], or [@default], which may pick any registered key. *)
Definition tokenRef (reg : Registry) (tok k : string) : Prop :=
  GoStrings.HasPrefixAt tok = true ∧ is_Some (defaults reg !! k) ∧
  (GoStrings.tail1 tok = "default" ∨ GoStrings.tail1 tok = k).

Definition specRefs (reg : Registry) (spec k : string) : Prop :=
  ∃ tok, tok ∈ tokensOf spec ∧ tokenRef reg tok k.

(** The collection/default-spec reference graph: an edge from [k] to [k']
    when the default spec registered under [k] has a reference to [k']. *)
Definition refEdge (reg : Registry) (k k' : string) : Prop :=
  ∃ s, defaults reg !! k = Some s ∧ specRefs reg s k'.

Definition acyclic (reg : Registry) : Prop :=
  ∀ k, ¬ tc (refEdge reg) k k.

(** A chain of references, latest first: each key is referenced by the
    default spec of the key after it. *)
Inductive chain (reg : Registry) : list string -> Prop :=
  | chain_nil : chain reg []
  | chain_one k : is_Some (defaults reg !! k) -> chain reg [k]
  | chain_cons k k' path :
      refEdge reg k' k -> chain reg (k' :: path) ->
      chain reg (k :: k' :: path).

(** The tokens [pre] never make the token loop fail, whatever the budget
    of the recursive calls: the loop gets past them. *)
Definition passes (reg : Registry) (pre : list string) : Prop :=
  ∀ n fs ch,
    match parseTokens (parseSpec n reg) reg pre fs ch with
    | Ok _ | OutOfFuel => True
    | _ => False
    end.

(** Parsing [spec] reaches a reference [@k] to a registered default spec:
    the token loop gets past every token before it. *)
Definition reachesRef (reg : Registry) (spec k : string) : Prop :=
  ∃ pre raw post,
    GoStrings.Split spec = pre ++ raw :: post ∧
    GoStrings.TrimSpace raw = String "@"%char k ∧
    k ≠ "default" ∧ is_Some (defaults reg !! k) ∧ passes reg pre.

(** [k] has a default spec whose parsing reaches a reference to [k']. *)
Definition reachEdge (reg : Registry) (k k' : string) : Prop :=
  ∃ s, defaults reg !! k = Some s ∧ reachesRef reg s k'.

(** *** The mutating calls of the catalog API *)
Inductive mutation : Type :=
  | MRegister (b : FieldBuilder)
  | MDefineCollection (name defaultSpec : string) (fs : list string)
  | MSetDefaults (collectionName spec : string).

Definition mutate (m : mutation) (r : Registry) : Registry :=
  match m with
  | MRegister b => FieldBuilder_Register b r
  | MDefineCollection name defaultSpec fs => DefineCollection name defaultSpec fs r
  | MSetDefaults collectionName spec => SetDefaults collectionName spec r
  end.

(** ** The catalog and the programs in one memory

    A [*Registry] is a pointer to a struct of five maps, and a Go map is a
    reference to a table that [m[k] = v] updates in place; a [*Program]
    holds slices (references to backing arrays) and closures, and a closure
    refers to the variables it captures, which outlive the call that
    declared them.  Here all of these live in one heap of objects:
    the tables of the registry's maps, the variable [f] (the parameter of
    [makeWriter], of type [Field[T]]) that each writer closure captures, and
    the backing arrays of the header, underline and separator.  An address
    is an index into the heap; allocation appends a new object.  The
    caller's [tmp] and [line] buffers stay values, as above. *)

Inductive object : Type :=
  | OFieldMap (m : gmap string Field)           (* map[string]Field[T] *)
  | OStringMap (m : gmap string string)         (* map[string]string *)
  | OListMap (m : gmap string (list string))    (* map[string][]string *)
  | OVar (f : Field)                            (* a variable of type Field[T] *)
  | OBytes (b : bytes).                         (* the backing array of a []byte *)

Definition alloc (h : list object) (o : object) : nat * list object :=
  (length h, h ++ [o]).

(** The [Registry] struct: the addresses of its five maps. *)
Record RegistryPtr : Type := {
  fieldsAt : nat;
  indexAt : nat;
  collectionsAt : nat;
  defaultsAt : nat;
  categoriesAt : nat
}.

(** [NewRegistry] with its five [make(map...)] calls. *)
Definition NewRegistryAt (h : list object) : RegistryPtr * list object :=
  let '(a1, h) := alloc h (OFieldMap ∅) in
  let '(a2, h) := alloc h (OStringMap ∅) in
  let '(a3, h) := alloc h (OListMap ∅) in
  let '(a4, h) := alloc h (OStringMap ∅) in
  let '(a5, h) := alloc h (OListMap ∅) in
  ({| fieldsAt := a1; indexAt := a2; collectionsAt := a3; defaultsAt := a4;
      categoriesAt := a5 |}, h).

(** The contents of the registry's maps in the heap [h], as the registry
    value that [get] and [parseSpec] read. *)
Definition loadRegistry (h : list object) (r : RegistryPtr) : option Registry :=
  match h !! fieldsAt r, h !! indexAt r, h !! collectionsAt r,
        h !! defaultsAt r, h !! categoriesAt r with
  | Some (OFieldMap fm), Some (OStringMap im), Some (OListMap cm),
    Some (OStringMap dm), Some (OListMap gm) =>
      Some {| fields := fm; index := im; collections := cm; defaults := dm;
              categories := gm |}
  | _, _, _, _, _ => None
  end.

(** [m[k] = f] on the map at address [a]; there is no table to write to
    when the address holds no map of that type. *)
Definition storeField (a : nat) (k : string) (f : Field) (h : list object)
    : outcome (list object) :=
  match h !! a with
  | Some (OFieldMap m) => Ok (<[a := OFieldMap (<[k := f]> m)]> h)
  | _ => Panic
  end.

Definition storeString (a : nat) (k x : string) (h : list object)
    : outcome (list object) :=
  match h !! a with
  | Some (OStringMap m) => Ok (<[a := OStringMap (<[k := x]> m)]> h)
  | _ => Panic
  end.

Definition storeList (a : nat) (k : string) (xs : list string)
    (h : list object) : outcome (list object) :=
  match h !! a with
  | Some (OListMap m) => Ok (<[a := OListMap (<[k := xs]> m)]> h)
  | _ => Panic
  end.

(** [m[k] = append(m[k], x)] *)
Definition appendList (a : nat) (k x : string) (h : list object)
    : outcome (list object) :=
  match h !! a with
  | Some (OListMap m) =>
      Ok (<[a := OListMap (<[k := default [] (m !! k) ++ [x]]> m)]> h)
  | _ => Panic
  end.

(** [Register], statement by statement, on the registry at [r]. *)
Definition FieldBuilder_RegisterAt (b : FieldBuilder) (r : RegistryPtr)
    (h : list object) : outcome (list object) :=
  let name := Name (field b) in
  h ← storeField (fieldsAt r) name (field b) h;
  h ← storeString (indexAt r) (ToLower name) name h;
  let cat := Category (field b) in
  let cat := if String.eqb cat "" then "General" else cat in
  appendList (categoriesAt r) cat name h.

Definition DefineCollectionAt (name defaultSpec : string) (fs : list string)
    (r : RegistryPtr) (h : list object) : outcome (list object) :=
  h ← storeList (collectionsAt r) name fs h;
  storeString (defaultsAt r) name defaultSpec h.

Definition SetDefaultsAt (collectionName spec : string) (r : RegistryPtr)
    (h : list object) : outcome (list object) :=
  storeString (defaultsAt r) collectionName spec h.

Definition mutateAt (m : mutation) (r : RegistryPtr) (h : list object)
    : outcome (list object) :=
  match m with
  | MRegister b => FieldBuilder_RegisterAt b r h
  | MDefineCollection name defaultSpec fs =>
      DefineCollectionAt name defaultSpec fs r h
  | MSetDefaults collectionName spec => SetDefaultsAt collectionName spec r h
  end.

(** A sequence of mutating calls, in order. *)
Fixpoint mutateAllAt (ms : list mutation) (r : RegistryPtr) (h : list object)
    : outcome (list object) :=
  match ms with
  | [] => Ok h
  | m :: ms' => h ← mutateAt m r h; mutateAllAt ms' r h
  end.

(** The bytes of a slice: [None] is the nil slice. *)
Definition readSlice (h : list object) (s : option nat) : outcome bytes :=
  match s with
  | None => Ok []
  | Some a =>
      match h !! a with
      | Some (OBytes b) => Ok b
      | _ => Panic
      end
  end.

(** The current value of the captured variable at [fa], passed to [k]. *)
Definition withVar {A : Type} (h : list object) (fa : nat)
    (k : Field -> outcome A) : outcome A :=
  match h !! fa with
  | Some (OVar f) => k f
  | _ => Panic
  end.

(** [compiledCol] with its writer closure, which reads the variables it
    captured in the heap of the moment it is called. *)
Record compiledColAt : Type := {
  widthAt : Z;
  writeAt : list object -> bytes -> T -> bytes -> outcome (bytes * bytes)
}.

(** [Program]: three slices and the columns. *)
Record ProgramAt : Type := {
  headerAt : option nat;
  underlineAt : option nat;
  separatorAt : option nat;
  columnsAt : list compiledColAt
}.

(** [makeWriter(f, noPad)]: the call receives a copy of the field in its
    parameter [f], a new variable; the [switch] on [f.Kind], [f.Width] for
    the [width] field and [f.Precision] are read during the call, and the
    returned closure refers to the variable [f] (and to [prec]). *)
Definition makeWriterAt (f : Field) (noPad : bool) (h : list object)
    : compiledColAt * list object :=
  let '(fa, h) := alloc h (OVar f) in
  let col :=
    if Kind f =? KindString then
      {| widthAt := Width f;
         writeAt := fun h line v tmp =>
           withVar h fa (fun f =>
             match GetString f with
             | None => Panic
             | Some getString =>
                 let s := getString v in
                 line ← padLeft line s (Width f);
                 Ok (line, tmp)
             end) |}
    else if Kind f =? KindInt then
      {| widthAt := Width f;
         writeAt := fun h line v tmp =>
           let tmp : bytes := [] in
           withVar h fa (fun f =>
             match GetInt f with
             | None => Panic
             | Some getInt =>
                 let tmp := GoStrconv.AppendInt tmp (GoStrconv.int64 (getInt v)) in
                 line ← padBytesLeft line tmp (Width f);
                 Ok (line, tmp)
             end) |}
    else if Kind f =? KindFloat then
      let prec := Precision f in
      let prec := if prec <? 0 then 2 else prec in
      {| widthAt := Width f;
         writeAt := fun h line v tmp =>
           let tmp : bytes := [] in
           withVar h fa (fun f =>
             match GetFloat f with
             | None => Panic
             | Some getFloat =>
                 let tmp := AppendFloat tmp (getFloat v) "f"%char prec 64 in
                 line ← padBytesLeft line tmp (Width f);
                 Ok (line, tmp)
             end) |}
    else if Kind f =? KindCustom then
      {| widthAt := Width f;
         writeAt := fun h line v tmp =>
           let tmp : bytes := [] in
           withVar h fa (fun f =>
             match GetCustom f with
             | None => Panic
             | Some getCustom =>
                 let tmp := getCustom tmp v in
                 line ← padBytesLeft line tmp (Width f);
                 Ok (line, tmp)
             end) |}
    else
      {| widthAt := Width f;
         writeAt := fun h line _ tmp =>
           withVar h fa (fun f =>
             Ok (appendN line " "%char (Z.to_nat (Width f)), tmp)) |} in
  (col, h).

(** The loop [for i, f := range fields { p.columns[i] = makeWriter(f, noPad) }]
    from index [i], for [n] fields in all. *)
Fixpoint makeWritersAt (noPadding padLast : bool) (n i : nat)
    (fs : list Field) (h : list object) : list compiledColAt * list object :=
  match fs with
  | [] => ([], h)
  | f :: fs' =>
      let '(c, h) := makeWriterAt f (noPadAt noPadding padLast n i) h in
      let '(cs, h) := makeWritersAt noPadding padLast n (S i) fs' h in
      (c :: cs, h)
  end.

(** [CompileWithOptions] on the registry at [r].  [parseSpec] and [get]
    read the registry's maps and write nothing, so they run on the contents
    of the maps at the call; the map holds [Field[T]] structs, and [get]
    returns the struct it finds by value.  The program's slices and the
    variables its closures capture are allocated by the call, in the order
    of the source. *)
Definition CompileWithOptionsAt (fuel : nat) (r : RegistryPtr) (spec : string)
    (opts : Options) (ch : choices) (h : list object)
    : outcome (ProgramAt * list object) :=
  if String.eqb spec "" then Err EmptySpec
  else
    match loadRegistry h r with
    | None => Panic
    | Some reg =>
        res ← parseSpec fuel reg spec ch;
        let fs := (res : list Field * choices).1 in
        if (length fs =? 0)%nat then Err NoFields
        else
          let sep := Separator opts in
          let '(sepAt, h) := alloc h (OBytes (list_ascii_of_string sep)) in
          hd ← (if negb (NoHeader opts)
                then buildHeader fs sep (NoPadding opts) (PadLastColumn opts)
                else Ok []);
          let '(hdAt, h) :=
            if negb (NoHeader opts)
            then let '(a, h) := alloc h (OBytes hd) in (Some a, h)
            else (None, h) in
          let '(ulAt, h) :=
            if negb (NoUnderline opts)
            then let '(a, h) := alloc h (OBytes (buildUnderline hd)) in
                 (Some a, h)
            else (None, h) in
          let '(cols, h) :=
            makeWritersAt (NoPadding opts) (PadLastColumn opts) (length fs)
              0 fs h in
          Ok ({| headerAt := hdAt; underlineAt := ulAt;
                 separatorAt := Some sepAt; columnsAt := cols |}, h)
    end.

(** The rendering entry points on a program in the heap. *)
Definition HeaderStringAt (p : ProgramAt) (h : list object) : outcome string :=
  hd ← readSlice h (headerAt p); Ok (string_of_list_ascii hd).

Definition WriteHeaderAt {W : Type} `{Writer W} (p : ProgramAt)
    (h : list object) (w : W) (line : bytes)
    : outcome (bytes * W * option ioerror) :=
  hd ← readSlice h (headerAt p);
  let line := [] ++ hd in
  let line := line ++ [newline] in
  let '(w, err) := Write w line in
  Ok (line, w, err).

Definition WriteUnderlineAt {W : Type} `{Writer W} (p : ProgramAt)
    (h : list object) (w : W) (line : bytes)
    : outcome (bytes * W * option ioerror) :=
  ul ← readSlice h (underlineAt p);
  let line := [] ++ ul in
  let line := line ++ [newline] in
  let '(w, err) := Write w line in
  Ok (line, w, err).

Definition FormatRowAt (p : ProgramAt) (h : list object) (v : T)
    (tmp line : bytes) : outcome (string * bytes * bytes) :=
  let line : bytes := [] in
  r ← forRange (columnsAt p) (fun i c '(line, tmp) =>
      line ← (if (0 <? i)%nat
              then sep ← readSlice h (separatorAt p); Ok (line ++ sep)
              else Ok line);
      writeAt c h line v tmp) (line, tmp);
  let '(line, tmp) := (r : bytes * bytes) in
  Ok (string_of_list_ascii line, tmp, line).

Definition WriteRowAt {W : Type} `{Writer W} (p : ProgramAt)
    (h : list object) (w : W) (v : T) (tmp line : bytes)
    : outcome (bytes * bytes * W * option ioerror) :=
  let line : bytes := [] in
  r ← forRange (columnsAt p) (fun i c '(line, tmp) =>
      line ← (if (0 <? i)%nat
              then sep ← readSlice h (separatorAt p); Ok (line ++ sep)
              else Ok line);
      writeAt c h line v tmp) (line, tmp);
  let '(line, tmp) := (r : bytes * bytes) in
  let line := line ++ [newline] in
  let '(w, err) := Write w line in
  Ok (tmp, line, w, err).

(** The program at [p] in the heap [h] renders as the program value [p0]:
    every rendering entry point gives what it gives on [p0]. *)
Definition rendersAs (p : ProgramAt) (h : list object) (p0 : Program) : Prop :=
  HeaderStringAt p h = Ok (HeaderString p0) ∧
  (∀ (W : Type) (Wr : Writer W) (w : W) (line : bytes),
     WriteHeaderAt p h w line = Ok (WriteHeader p0 w line) ∧
     WriteUnderlineAt p h w line = Ok (WriteUnderline p0 w line)) ∧
  (∀ (v : T) (tmp line : bytes),
     FormatRowAt p h v tmp line = FormatRow p0 v tmp line) ∧
  (∀ (W : Type) (Wr : Writer W) (w : W) (v : T) (tmp line : bytes),
     WriteRowAt p h w v tmp line = WriteRow p0 w v tmp line).

(** The addresses that the mutating calls of the catalog API write to. *)
Definition footprint (r : RegistryPtr) : list nat :=
  [fieldsAt r; indexAt r; collectionsAt r; defaultsAt r; categoriesAt r].

(** The type of an object; a store never changes the type of the object at
    an address. *)
Inductive objectKind : Type := KFieldMap | KStringMap | KListMap | KVar | KBytes.

Definition kindOf (o : object) : objectKind :=
  match o with
  | OFieldMap _ => KFieldMap
  | OStringMap _ => KStringMap
  | OListMap _ => KListMap
  | OVar _ => KVar
  | OBytes _ => KBytes
  end.

(** The five addresses of [r] hold maps of the types of the struct. *)
Definition registryKinds (h : list object) (r : RegistryPtr) : Prop :=
  kindOf <$> h !! fieldsAt r = Some KFieldMap ∧
  kindOf <$> h !! indexAt r = Some KStringMap ∧
  kindOf <$> h !! collectionsAt r = Some KListMap ∧
  kindOf <$> h !! defaultsAt r = Some KStringMap ∧
  kindOf <$> h !! categoriesAt r = Some KListMap.

(** [h'] is [h] up to the contents of the maps of the registry at [r]. *)
Definition mutated (r : RegistryPtr) (h h' : list object) : Prop :=
  kindOf <$> h' = kindOf <$> h ∧
  ∀ a, a ∉ footprint r -> h' !! a = h !! a.

(** The writer closure of the column [c] refers to one variable, allocated
    at an address from [n] on and holding [f] in [h], and it writes what
    the column value [c0] writes whenever that variable holds [f]. *)
Definition capturedColumn (n : nat) (h : list object) (c : compiledColAt)
    (c0 : compiledCol) : Prop :=
  widthAt c = width c0 ∧
  ∃ a f, (n <= a)%nat ∧ h !! a = Some (OVar f) ∧
    ∀ h2, h2 !! a = Some (OVar f) ->
      ∀ line v tmp, writeAt c h2 line v tmp = write c0 line v tmp.

(** The slice [s] holds the bytes [b] in [h], in a backing array at an
    address from [n] on; the nil slice holds no bytes. *)
Definition sliceHolds (n : nat) (h : list object) (s : option nat)
    (b : bytes) : Prop :=
  match s with
  | None => b = []
  | Some a => (n <= a)%nat ∧ h !! a = Some (OBytes b)
  end.

(** The program at [p] is in [h] the program value [p0]: its slices hold
    the header, underline and separator of [p0], and its columns are those
    of [p0], each with its captured variable; all of it at addresses from
    [n] on. *)
Definition builtAs (n : nat) (p : ProgramAt) (h : list object) (p0 : Program)
    : Prop :=
  sliceHolds n h (headerAt p) (header p0) ∧
  sliceHolds n h (underlineAt p) (underline p0) ∧
  sliceHolds n h (separatorAt p) (separator p0) ∧
  Forall2 (capturedColumn n h) (columnsAt p) (columns p0).

(** ** registry.go: listings *)

(** [ListFields] returns all registered field names in alphabetical order:
    the keys of [fields] are collected by a [range] over the map, then
    sorted. *)
Definition ListFields (r : Registry) : list string :=
  sortStrings (map_to_list (fields r)).*1.

(** [ListCollections] returns all collection names in alphabetical order. *)
Definition ListCollections (r : Registry) : list string :=
  sortStrings (map_to_list (collections r)).*1.

(** ** Further notions used to state properties *)

(** The consistency of the three views of the registered fields: a field
    is stored under its own name, every stored name has an entry in the
    lower-case index, and every index entry is the lower-case form of a
    stored name. *)
Definition wfRegistry (r : Registry) : Prop :=
  (∀ c f, fields r !! c = Some f ->
          Name f = c ∧ is_Some (index r !! ToLower c)) ∧
  (∀ l c, index r !! l = Some c ->
          ToLower c = l ∧ is_Some (fields r !! c)).

(** [f] is a field that [get] finds in the catalog, with its registered
    width or with a positive width override. *)
Definition resolvedFrom (reg : Registry) (f : Field) : Prop :=
  ∃ q f0, get reg q = Some f0 ∧ (f = f0 ∨ ∃ w, 0 < w ∧ f = setWidth f0 w).

(** The sum of the column widths of a program plus one separator between
    adjacent columns. *)
Definition programWidth (p : Program) : Z :=
  foldr (fun c a => width c + a) 0 (columns p)
  + (Z.of_nat (length (columns p)) - 1) * blen (separator p).

End Colprint.

(** ** The hierarchical registry (the registry variant with insertion order,
       sub-registries and field inheritance)

    This variant of registry.go records the order of registration in
    [fieldOrder] and lets a registry hold sub-registries.  Sub-registries
    are held by pointer: they are addresses here, and the lookup through
    them is not part of this model.  Its [Field] has no category. *)

Module Hier.

Section Hier.

Context `{GoLib}.

(** [type Registry[T any] struct] *)
Record Registry {T : Type} : Type := {
  name : string;
  fields : gmap string (Field (T := T));
  fieldOrder : list string;
  index : gmap string string;
  collections : gmap string (list string);
  defaults : gmap string string;
  subRegistries : list nat
}.

Arguments Registry T : clear implicits.

Definition NewRegistry {T : Type} : Registry T :=
  {| name := ""; fields := ∅; fieldOrder := []; index := ∅;
     collections := ∅; defaults := ∅; subRegistries := [] |}.

Definition NewRegistryWithName {T : Type} (n : string) : Registry T :=
  {| name := n; fields := ∅; fieldOrder := []; index := ∅;
     collections := ∅; defaults := ∅; subRegistries := [] |}.

(** [AddRegistry] appends the address of a sub-registry. *)
Definition AddRegistry {T : Type} (sub : nat) (r : Registry T) : Registry T :=
  {| name := name r; fields := fields r; fieldOrder := fieldOrder r;
     index := index r; collections := collections r; defaults := defaults r;
     subRegistries := subRegistries r ++ [sub] |}.

(** [Register] adds the builder's field and tracks the insertion order. *)
Definition Register {T : Type} (b : FieldBuilder (T := T)) (r : Registry T)
    : Registry T :=
  let n := Name (field b) in
  {| name := name r;
     fields := <[n := field b]> (fields r);
     fieldOrder := fieldOrder r ++ [n];
     index := <[ToLower n := n]> (index r);
     collections := collections r; defaults := defaults r;
     subRegistries := subRegistries r |}.

(** [ListFields(sorted)]: the insertion order, or its sorted copy. *)
Definition ListFields {T : Type} (r : Registry T) (sorted : bool)
    : list string :=
  if negb sorted then fieldOrder r else sortStrings (fieldOrder r).

(** The field [InheritFieldsFrom] builds from a source field: the same
    metadata, and the extractor of the source field's kind wrapped with
    the mapper; the other extractors stay nil.  (A wrapper around a nil
    source extractor panics when called, as a nil extractor does: it is
    [None] here.) *)
Definition inheritField {T S : Type} (mapper : T -> S)
    (srcField : Field (T := S)) : Field (T := T) :=
  {| Name := Name srcField; Display := Display srcField;
     Description := Description srcField; Category := "";
     Width := Width srcField; Kind := Kind srcField;
     Precision := Precision srcField;
     GetString :=
       if Kind srcField =? KindString
       then (fun g t => g (mapper t)) <$> GetString srcField else None;
     GetInt :=
       if Kind srcField =? KindInt
       then (fun g t => g (mapper t)) <$> GetInt srcField else None;
     GetFloat :=
       if Kind srcField =? KindFloat
       then (fun g t => g (mapper t)) <$> GetFloat srcField else None;
     GetCustom :=
       if Kind srcField =? KindCustom
       then (fun g buf t => g buf (mapper t)) <$> GetCustom srcField
       else None |}.

(** [InheritFieldsFrom] copies all fields of [source] into [dest], in the
    insertion order of [source]. *)
Definition InheritFieldsFrom {T S : Type} (dest : Registry T)
    (source : Registry S) (mapper : T -> S) : Registry T :=
  foldl (fun (d : Registry T) (n : string) =>
           let srcField := default zeroField (fields source !! n) in
           let fld := inheritField mapper srcField in
           {| name := name d;
              fields := <[n := fld]> (fields d);
              fieldOrder := fieldOrder d ++ [n];
              index := <[ToLower n := n]> (index d);
              collections := collections d; defaults := defaults d;
              subRegistries := subRegistries d |})
        dest (fieldOrder source).

End Hier.

Arguments Registry {_} T.

End Hier.

(** ** Concrete catalogs *)

(** [strings.ToLower] on ASCII strings. *)
Definition asciiToLower (s : string) : string :=
  string_of_list_ascii
    ((fun c => let n := N_of_ascii c in
               if ((65 <=? n) && (n <=? 90))%N then ascii_of_N (n + 32) else c)
       <$> list_ascii_of_string s).

(** An instance of the library interface for closed examples: [ToLower]
    agrees with Go on ASCII input; no example below formats a float. *)
Definition asciiLib : GoLib :=
  {| float64 := Z;
     AppendFloat := fun dst _ _ _ _ => dst;
     ToLower := asciiToLower |}.

(** The record type of example_test.go. *)
Record Person : Type := {
  PersonName : string;
  PersonAge : Z;
  PersonHeight : Z;
  PersonKids : Z
}.

Definition alice : Person :=
  {| PersonName := "Alice"; PersonAge := 30; PersonHeight := 0; PersonKids := 0 |}.

Section Catalogs.

Context `{GoLib}.

(** Fields [name] (string, width [wn]) and [age] (int, width [wa]). *)
Definition nameAgeRegistry (wn wa : Z) : Registry (T := Person) :=
  FieldBuilder_Register
    (FieldBuilder_Int PersonAge
       (FieldBuilder_Width wa (Registry_Field "age" "Age" "Age in years")))
    (FieldBuilder_Register
       (FieldBuilder_String PersonName
          (FieldBuilder_Width wn (Registry_Field "name" "Name" "Person's name")))
       NewRegistry).

(** A single string field [name] of width [wn] (TestFormatString). *)
Definition nameRegistry (wn : Z) : Registry (T := Person) :=
  FieldBuilder_Register
    (FieldBuilder_String PersonName
       (FieldBuilder_Width wn (Registry_Field "name" "Name" "Test")))
    NewRegistry.

(** Two registered default specs. *)
Definition twoDefaultsRegistry : Registry (T := Person) :=
  SetDefaults "b" "age" (SetDefaults "a" "name" (nameAgeRegistry 10 4)).

(** A default spec that references its own collection name. *)
Definition selfRefRegistry : Registry (T := Person) :=
  DefineCollection "a" "name,@a" ["name"] (nameAgeRegistry 10 4).

(** Scenario D: collection [basic] with default spec [name,age]. *)
Definition basicRegistry : Registry (T := Person) :=
  DefineCollection "basic" "name,age" ["name"; "age"] (nameAgeRegistry 10 4).

(** The string field [name] with width [wn], as the builder leaves it. *)
Definition nameField (wn : Z) : Field (T := Person) :=
  field (FieldBuilder_String PersonName
           (FieldBuilder_Width wn (Registry_Field "name" "Name" "Test"))).

(** The builders of TestHeaderAndUnderline. *)
Definition nameBuilder (wn : Z) : FieldBuilder (T := Person) :=
  FieldBuilder_String PersonName
    (FieldBuilder_Width wn (Registry_Field "name" "Name" "Test")).

Definition ageBuilder (wa : Z) : FieldBuilder (T := Person) :=
  FieldBuilder_Int PersonAge
    (FieldBuilder_Width wa (Registry_Field "age" "Age" "Test")).

(** TestHeaderAndUnderline's registry in memory: [NewRegistry] in the
    empty heap, then the two [Register] calls. *)
Definition registry0 : RegistryPtr := (NewRegistryAt (T := Person) []).1.

Definition nameAgeHeap : outcome (list (object (T := Person))) :=
  mutateAllAt [MRegister (nameBuilder 10); MRegister (ageBuilder 5)]
    registry0 (NewRegistryAt []).2.

(** Calls made after a program was compiled: [name] is registered again
    with another display, width and extractor, a collection is defined and
    a default spec is set. *)
Definition laterCalls : list (mutation (T := Person)) :=
  [MRegister
     (FieldBuilder_String (fun _ => "changed")
        (FieldBuilder_Width 3 (Registry_Field "name" "N" "Changed")));
   MDefineCollection "basic" "age" ["age"];
   MSetDefaults "main" "age"].

(** Example_csv: separator [","] and no padding. *)
Definition csvOptions : Options :=
  {| Separator := ","; NoPadding := true; PadLastColumn := false;
     NoHeader := false; NoUnderline := false |}.

(** Every column padded, the last one included. *)
Definition paddedOptions : Options :=
  {| Separator := "  "; NoPadding := false; PadLastColumn := true;
     NoHeader := false; NoUnderline := false |}.

End Catalogs.

Definition alexandria : Person :=
  {| PersonName := "Alexandria"; PersonAge := 33; PersonHeight := 0;
     PersonKids := 0 |}.

(** A record whose name ends in a space. *)
Definition trailing : Person :=
  {| PersonName := "a "; PersonAge := 1; PersonHeight := 0; PersonKids := 0 |}.

Definition bob : Person :=
  {| PersonName := "Bob"; PersonAge := 25; PersonHeight := 0; PersonKids := 0 |}.

(** * Properties *)

(** ** The library models on the inputs of the package's tests *)

Example TrimSpace_token : GoStrings.TrimSpace "  name:20 " = "name:20".
Proof. reflexivity. Qed.

Example TrimSpace_nbsp :
  GoStrings.TrimSpace (String "194" (String "160" "a")) = "a".
Proof. reflexivity. Qed.

Example Split_commas : GoStrings.Split "a,,b," = ["a"; ""; "b"; ""].
Proof. reflexivity. Qed.

Example Split_empty : GoStrings.Split "" = [""].
Proof. reflexivity. Qed.

Example Atoi_signed : GoStrconv.Atoi "-12" = Some (-12).
Proof. reflexivity. Qed.

Example Atoi_out_of_range : GoStrconv.Atoi "9223372036854775808" = None.
Proof. reflexivity. Qed.

Example Atoi_trailing_garbage : GoStrconv.Atoi "1x" = None.
Proof. reflexivity. Qed.

Example AppendInt_negative :
  GoStrconv.AppendInt [] (-30) = list_ascii_of_string "-30".
Proof. reflexivity. Qed.

Section Properties.

Context `{GoLib} {T : Type}.

Implicit Types (f : Field (T := T)) (reg : Registry (T := T))
  (p : Program (T := T)) (v : T) (line tmp dst val : bytes).

(** ** Padding and truncation *)

Lemma appendN_replicate dst c n : appendN dst c n = dst ++ replicate n c.
Proof.
  revert dst; induction n as [|n IH]; intros dst; simpl.
  - by rewrite app_nil_r.
  - rewrite IH, <- app_assoc. done.
Qed.

Lemma padBytesLeft_truncate dst val w :
  0 <= w -> w < blen val ->
  padBytesLeft dst val w = Ok (dst ++ take (Z.to_nat w) val).
Proof.
  intros Hw Hl. unfold padBytesLeft.
  destruct (Z.gtb_spec (blen val) w); [|lia].
  destruct (Z.ltb_spec w 0); [lia|done].
Qed.

Lemma padBytesLeft_pad dst val w :
  blen val <= w ->
  padBytesLeft dst val w =
    Ok (dst ++ val ++ replicate (Z.to_nat (w - blen val)) " "%char).
Proof.
  intros Hl. unfold padBytesLeft.
  destruct (Z.gtb_spec (blen val) w); [lia|].
  by rewrite appendN_replicate, <- app_assoc.
Qed.

(** Every writer built for one of the four kinds formats the field value
    and hands it to [padBytesLeft]; the padding flag is not consulted. *)
Lemma makeWriter_write f noPad v val line tmp :
  fieldValue f v = Some val ->
  ∃ tmp',
    write (makeWriter f noPad) line v tmp =
      (line' ← padBytesLeft line val (Width f); Ok (line', tmp')).
Proof.
  unfold fieldValue, makeWriter. intros Hv.
  destruct (Kind f =? KindString).
  { destruct (GetString f) as [g|]; simplify_eq/=. by exists tmp. }
  destruct (Kind f =? KindInt).
  { destruct (GetInt f) as [g|]; simplify_eq/=. by eexists. }
  destruct (Kind f =? KindFloat).
  { destruct (GetFloat f) as [g|]; simplify_eq/=. by eexists. }
  destruct (Kind f =? KindCustom).
  { destruct (GetCustom f) as [g|]; simplify_eq/=. by eexists. }
  done.
Qed.

Lemma makeWriter_width f noPad : width (makeWriter f noPad) = Width f.
Proof.
  unfold makeWriter. by repeat case_match.
Qed.

(** The writer does not depend on the padding flag it is given. *)
Lemma makeWriter_noPad_ignored f : makeWriter f true = makeWriter f false.
Proof. reflexivity. Qed.

(** The columns of a compiled program are the writers of the resolved
    fields, in order, each built with the padding flag derived from the
    options and its position. *)
Lemma CompileWithOptions_columns fuel reg spec opts ch p :
  CompileWithOptions fuel reg spec opts ch = Ok p ->
  ∃ fs ch',
    parseSpec fuel reg spec ch = Ok (fs, ch') ∧
    columns p =
      imap (fun i f =>
              makeWriter f
                (noPadAt (NoPadding opts) (PadLastColumn opts) (length fs) i))
           fs.
Proof.
  unfold CompileWithOptions. intros Hc.
  destruct (String.eqb spec ""); [done|].
  destruct (parseSpec fuel reg spec ch) as [[fs ch']| | |]; simpl in Hc; try done.
  destruct (length fs =? 0)%nat; [done|].
  destruct (negb (NoHeader opts)); [|simplify_eq/=; eauto].
  destruct (buildHeader _ _ _ _); simplify_eq/=; eauto.
Qed.

Lemma compiled_column fuel reg spec opts ch p i c :
  CompileWithOptions fuel reg spec opts ch = Ok p ->
  columns p !! i = Some c ->
  ∃ fs ch' f,
    parseSpec fuel reg spec ch = Ok (fs, ch') ∧
    fs !! i = Some f ∧
    c = makeWriter f
          (noPadAt (NoPadding opts) (PadLastColumn opts) (length fs) i) ∧
    width c = Width f.
Proof.
  intros Hc Hi.
  destruct (CompileWithOptions_columns _ _ _ _ _ _ Hc) as (fs & ch' & Hp & Hcols).
  rewrite Hcols, list_lookup_imap in Hi.
  destruct (fs !! i) as [f|] eqn:Hf; simplify_eq/=.
  exists fs, ch', f. split; [done|]. split; [done|]. split; [done|].
  apply makeWriter_width.
Qed.

(** C4. Truncation: for a column of any of the four kinds with positive
    width [w], whenever the formatted value is longer than [w] bytes, the
    bytes the column's writer appends to the row are exactly [w] bytes,
    the first [w] bytes of the value's full representation. *)
Theorem C4_truncation_is_prefix f noPad v val line tmp :
  fieldValue f v = Some val ->
  0 < Width f ->
  Width f < blen val ->
  ∃ tmp',
    write (makeWriter f noPad) line v tmp =
      Ok (line ++ take (Z.to_nat (Width f)) val, tmp') ∧
    blen (take (Z.to_nat (Width f)) val) = Width f ∧
    take (Z.to_nat (Width f)) val `prefix_of` val ∧
    take (Z.to_nat (Width f)) val ≠ val.
Proof.
  intros Hv Hpos Hlen.
  destruct (makeWriter_write f noPad v val line tmp Hv) as [tmp' Hw].
  exists tmp'. rewrite Hw, padBytesLeft_truncate by lia.
  unfold blen in *. split; [done|].
  assert (Hl : length (take (Z.to_nat (Width f)) val) = Z.to_nat (Width f))
    by (rewrite length_take; lia).
  split; [lia|]. split; [apply prefix_take|].
  intros Heq. rewrite Heq in Hl. lia.
Qed.

(** ** Right-trimming the padded field *)

Lemma trimRightSpaces_spaces n : trimRightSpaces (replicate n " "%char) = [].
Proof. induction n as [|n IH]; simpl; [done|]. by rewrite IH. Qed.

Lemma trimRightSpaces_app_spaces val n :
  trimRightSpaces (val ++ replicate n " "%char) = trimRightSpaces val.
Proof.
  induction val as [|c val IH]; simpl.
  - apply trimRightSpaces_spaces.
  - by rewrite IH.
Qed.

Lemma trimRightSpaces_id val :
  last val ≠ Some " "%char -> trimRightSpaces val = val.
Proof.
  induction val as [|c val IH]; [done|].
  destruct val as [|c' val].
  - simpl. intros Hl. destruct (Ascii.eqb_spec c " "%char); congruence.
  - intros Hl. change (last (c :: c' :: val)) with (last (c' :: val)) in Hl.
    specialize (IH Hl). change (trimRightSpaces (c :: c' :: val)) with
      (match trimRightSpaces (c' :: val) with
       | [] => if Ascii.eqb c " "%char then [] else [c]
       | t => c :: t
       end).
    by rewrite IH.
Qed.

(** A value no longer than the width is followed by spaces up to the
    width, whatever the padding flag. *)
Lemma makeWriter_pads f noPad v val line tmp :
  fieldValue f v = Some val ->
  blen val <= Width f ->
  ∃ tmp',
    write (makeWriter f noPad) line v tmp =
      Ok (line ++ val ++ replicate (Z.to_nat (Width f - blen val)) " "%char,
          tmp').
Proof.
  intros Hv Hl.
  destruct (makeWriter_write f noPad v val line tmp Hv) as [tmp' Hw].
  exists tmp'. by rewrite Hw, padBytesLeft_pad.
Qed.

(** C5 (amended). Padding round-trip: for a padded column and a value no
    longer than the column width, the rendered bytes are the value
    followed by spaces up to the width; right-trimming them gives the
    value right-trimmed, which is the value itself when the value does
    not end in an ASCII space. *)
Theorem C5_padding_roundtrip f v val line tmp :
  fieldValue f v = Some val ->
  blen val <= Width f ->
  ∃ rendered tmp',
    write (makeWriter f false) line v tmp = Ok (line ++ rendered, tmp') ∧
    blen rendered = Width f ∧
    trimRightSpaces rendered = trimRightSpaces val ∧
    (last val ≠ Some " "%char -> trimRightSpaces rendered = val).
Proof.
  intros Hv Hl.
  destruct (makeWriter_pads f false v val line tmp Hv Hl) as [tmp' Hw].
  eexists _, tmp'. split; [exact Hw|].
  split.
  { unfold blen in *. rewrite length_app, length_replicate. lia. }
  rewrite trimRightSpaces_app_spaces. split; [done|].
  apply trimRightSpaces_id.
Qed.

(** ** Rows written and rows returned *)

(** C9. [WriteRow] passes to the sink, in one write call, the bytes of the
    string [FormatRow] returns for the same program, record and buffers,
    followed by one newline byte; it panics exactly when [FormatRow]
    does.  On a sink that records its calls, one call is recorded. *)
Theorem C9_WriteRow_is_FormatRow_plus_newline p v tmp line :
  (∀ (W : Type) (Wr : Writer W) (w : W),
     WriteRow p w v tmp line =
       r ← FormatRow p v tmp line;
       let out := list_ascii_of_string (r : string * bytes * bytes).1.1
                  ++ [newline] in
       Ok (r.1.2, out, (Write w out).1, (Write w out).2)) ∧
  (∀ (log : list bytes),
     WriteRow p log v tmp line =
       r ← FormatRow p v tmp line;
       let out := list_ascii_of_string (r : string * bytes * bytes).1.1
                  ++ [newline] in
       Ok (r.1.2, out, log ++ [out], None)).
Proof.
  assert (Hgen : ∀ (W : Type) (Wr : Writer W) (w : W),
     WriteRow p w v tmp line =
       r ← FormatRow p v tmp line;
       let out := list_ascii_of_string (r : string * bytes * bytes).1.1
                  ++ [newline] in
       Ok (r.1.2, out, (Write w out).1, (Write w out).2)).
  { intros W Wr w. unfold WriteRow, FormatRow.
    destruct (forRange _ _ _) as [[l t]| | |]; simpl; try done.
    rewrite list_ascii_of_string_of_list_ascii.
    by destruct (Write w (l ++ [newline])). }
  split; [exact Hgen|].
  intros log. rewrite Hgen.
  by destruct (FormatRow p v tmp line) as [[[s t] l]| | |].
Qed.

(** ** [@default] without registered defaults *)

Lemma rangeFirst_empty {V : Type} (ch : choices) :
  (rangeFirst (∅ : gmap string V) ch).1 = None.
Proof.
  unfold rangeFirst. rewrite map_to_list_empty. by destruct ch.
Qed.

(** C10. When the catalog has no registered default spec, the token
    [@default] does not fail: the token loop goes on with the fields
    accumulated so far, so a spec consisting only of [@default] fails
    with "no fields specified". *)
Theorem C10_default_without_defaults reg :
  defaults reg = ∅ ->
  (∀ rec raw rest fs ch,
     GoStrings.TrimSpace raw = "@default" ->
     ∃ ch', parseTokens rec reg (raw :: rest) fs ch =
            parseTokens rec reg rest fs ch') ∧
  (∀ fuel opts ch,
     CompileWithOptions (S fuel) reg "@default" opts ch = Err NoFields).
Proof.
  intros Hd.
  assert (Htok : ∀ rec raw rest fs ch,
     GoStrings.TrimSpace raw = "@default" ->
     ∃ ch', parseTokens rec reg (raw :: rest) fs ch =
            parseTokens rec reg rest fs ch').
  { intros rec raw rest fs ch Hraw. simpl. rewrite Hraw. simpl.
    pose proof (rangeFirst_empty (V := string) ch) as Hr. rewrite Hd.
    destruct (rangeFirst ∅ ch) as [[d|] ch']; simpl in Hr; [done|].
    by exists ch'. }
  split; [exact Htok|].
  intros fuel opts ch. unfold CompileWithOptions.
  change (String.eqb "@default" "") with false. cbv iota.
  change (parseSpec (S fuel) reg "@default" ch)
    with (parseTokens (parseSpec fuel reg) reg ["@default"] [] ch).
  destruct (Htok (parseSpec fuel reg) "@default" [] [] ch) as [ch' ->];
    [done|].
  done.
Qed.

(** ** The token loop *)

Lemma parseTokens_app rec reg l1 l2 fs ch :
  parseTokens rec reg (l1 ++ l2) fs ch =
    r ← parseTokens rec reg l1 fs ch; parseTokens rec reg l2 r.1 r.2.
Proof.
  revert fs ch; induction l1 as [|raw l1 IH]; intros fs ch; [done|].
  simpl.
  destruct (String.eqb _ ""); [apply IH|].
  destruct (GoStrings.HasPrefixAt _).
  - destruct (String.eqb _ "default").
    + destruct (rangeFirst _ _) as [[d|] ch1]; [|apply IH].
      destruct (rec d ch1) as [[ex ch2]| | |]; first [done | apply IH].
    + destruct (defaults reg !! _) as [d|]; [|done].
      destruct (rec d ch) as [[ex ch2]| | |]; first [done | apply IH].
  - destruct (parseFieldSpec _) as [[[n w] hw]| | |]; try done. simpl.
    destruct (get reg n); [|done].
    destruct hw; [destruct (w <=? 0); [done|]|]; apply IH.
Qed.

(** [parseFieldSpec] on a token with a colon. *)
Lemma parseFieldSpec_colon tok idx :
  GoStrings.IndexByte tok ":"%char = Some idx ->
  let name := GoStrings.TrimSpace (substring 0 idx tok) in
  let widthStr :=
    GoStrings.TrimSpace
      (substring (idx + 1) (String.length tok - (idx + 1)) tok) in
  parseFieldSpec tok =
    match GoStrconv.Atoi widthStr with
    | None => Err (if String.eqb widthStr "" then EmptyWidth tok
                   else InvalidWidthStr widthStr tok)
    | Some w => Ok (name, w, true)
    end.
Proof.
  intros Hi. unfold parseFieldSpec. rewrite Hi. simpl.
  destruct (String.eqb_spec
    (GoStrings.TrimSpace
       (substring (idx + 1) (String.length tok - (idx + 1)) tok)) "")
    as [->|]; [done|].
  by destruct (GoStrconv.Atoi _).
Qed.

Lemma IndexByte_nonempty tok c idx :
  GoStrings.IndexByte tok c = Some idx -> String.eqb tok "" = false.
Proof. by destruct tok. Qed.

(** C6 (amended). For a spec token [name:w] that the token loop reaches:
    when the width string is unparsable as an integer, compilation fails
    with an invalid-width error naming the token, whether or not [name]
    is registered; when it parses to a non-positive value, compilation
    fails with the invalid-width error if [name] is registered and with
    the unknown-field error if it is not. *)
Theorem C6_invalid_width reg fuel spec opts ch pre raw post fs ch' tok idx :
  GoStrings.Split spec = pre ++ raw :: post ->
  parseTokens (parseSpec fuel reg) reg pre [] ch = Ok (fs, ch') ->
  tok = GoStrings.TrimSpace raw ->
  GoStrings.HasPrefixAt tok = false ->
  GoStrings.IndexByte tok ":"%char = Some idx ->
  let name := GoStrings.TrimSpace (substring 0 idx tok) in
  let widthStr :=
    GoStrings.TrimSpace
      (substring (idx + 1) (String.length tok - (idx + 1)) tok) in
  (GoStrconv.Atoi widthStr = None ->
     ∃ e, CompileWithOptions (S fuel) reg spec opts ch = Err e ∧
          isInvalidWidth e ∧
          e = (if String.eqb widthStr "" then EmptyWidth tok
               else InvalidWidthStr widthStr tok)) ∧
  (∀ w, GoStrconv.Atoi widthStr = Some w -> w <= 0 ->
     (is_Some (get reg name) ->
        CompileWithOptions (S fuel) reg spec opts ch =
          Err (InvalidWidth w name)) ∧
     (get reg name = None ->
        CompileWithOptions (S fuel) reg spec opts ch =
          Err (UnknownField name))).
Proof.
  intros Hsplit Hpre -> Hat Hidx name widthStr.
  assert (Hne : String.eqb spec "" = false).
  { destruct spec; [|done]. simpl in Hsplit.
    destruct pre as [|? [|? ?]]; simplify_eq/=. }
  assert (Hparse : parseSpec (S fuel) reg spec ch =
    (r ← parseFieldSpec (GoStrings.TrimSpace raw);
     let '(fieldName, w, hasWidth) := (r : string * Z * bool) in
     match get reg fieldName with
     | None => Err (UnknownField fieldName)
     | Some f =>
         if hasWidth then
           if w <=? 0 then Err (InvalidWidth w fieldName)
           else parseTokens (parseSpec fuel reg) reg post
                  (fs ++ [setWidth f w]) ch'
         else parseTokens (parseSpec fuel reg) reg post (fs ++ [f]) ch'
     end)).
  { simpl. rewrite Hsplit, parseTokens_app, Hpre. simpl.
    by rewrite (IndexByte_nonempty _ _ _ Hidx), Hat. }
  unfold CompileWithOptions. rewrite Hne, Hparse.
  rewrite (parseFieldSpec_colon _ _ Hidx). fold name widthStr.
  split.
  - intros ->. simpl. eexists; split; [done|]. split; [|done].
    by destruct (String.eqb widthStr "").
  - intros w -> Hw. simpl. split.
    + intros [f ->]. by destruct (Z.leb_spec w 0); [|lia].
    + by intros ->.
Qed.

(** ** Termination of the expansion *)

Lemma rangeFirst_Some {V : Type} (m : gmap string V) ch (x : V) :
  (rangeFirst m ch).1 = Some x -> ∃ k, m !! k = Some x.
Proof.
  unfold rangeFirst. intros Hr.
  assert (Hin : ∃ i kv, map_to_list m !! i = Some kv ∧ kv.2 = x).
  { destruct ch as [|n ch]; simpl in Hr.
    - rewrite head_lookup in Hr.
      destruct (map_to_list m !! 0%nat) as [kv|] eqn:E; simplify_eq/=; eauto.
    - destruct (map_to_list m !! (n mod length (map_to_list m))%nat)
        as [kv|] eqn:E; simplify_eq/=; eauto. }
  destruct Hin as (i & [k x'] & Hi & <-). exists k.
  apply elem_of_map_to_list. by eapply list_elem_of_lookup_2.
Qed.

Lemma refEdge_dom reg k k' :
  refEdge reg k k' -> is_Some (defaults reg !! k) ∧ is_Some (defaults reg !! k').
Proof.
  intros (s & Hs & tok & _ & _ & Hk' & _). split; [by eexists|done].
Qed.

Lemma chain_dom reg path :
  chain reg path -> ∀ k, k ∈ path -> is_Some (defaults reg !! k).
Proof.
  induction 1 as [|k Hk|k k' path He Hc IH]; intros x Hx.
  - by apply elem_of_nil in Hx.
  - apply list_elem_of_singleton in Hx as ->. done.
  - apply elem_of_cons in Hx as [->|Hx]; [|by apply IH].
    by apply refEdge_dom in He as [_ ?].
Qed.

Lemma chain_tc reg k path :
  chain reg (k :: path) -> ∀ k', k' ∈ path -> tc (refEdge reg) k' k.
Proof.
  revert k; induction path as [|k1 path IH]; intros k Hc k' Hk'.
  - by apply elem_of_nil in Hk'.
  - inversion Hc as [| |? ? ? He Hc']; subst.
    apply elem_of_cons in Hk' as [->|Hk']; [by apply tc_once|].
    eapply tc_r; [by apply IH|done].
Qed.

Lemma chain_tail reg k path : chain reg (k :: path) -> chain reg path.
Proof. inversion 1; subst; [constructor|done]. Qed.

Lemma chain_NoDup reg path : acyclic reg -> chain reg path -> NoDup path.
Proof.
  intros Hac. induction path as [|k path IH]; intros Hc; [constructor|].
  constructor; [|by eapply IH, chain_tail].
  intros Hin. eapply Hac, chain_tc; done.
Qed.

Lemma chain_length reg path :
  acyclic reg -> chain reg path -> (length path <= size (defaults reg))%nat.
Proof.
  intros Hac Hc.
  rewrite <- (length_map_to_list (defaults reg)), <- (length_fmap fst).
  apply submseteq_length, NoDup_submseteq; [by apply (chain_NoDup reg)|].
  intros k Hk. destruct (chain_dom _ _ Hc k Hk) as [s Hs].
  apply list_elem_of_fmap. exists (k, s). split; [done|].
  by apply elem_of_map_to_list.
Qed.

(** The token loop terminates when every recursive call it can make
    does. *)
Lemma parseTokens_terminated rec reg tokens fs ch :
  (∀ tok k s ch',
     tok ∈ GoStrings.TrimSpace <$> tokens -> tokenRef reg tok k ->
     defaults reg !! k = Some s -> terminated (rec s ch')) ->
  terminated (parseTokens rec reg tokens fs ch).
Proof.
  revert fs ch; induction tokens as [|raw tokens IH]; intros fs ch Hrec;
    [done|].
  assert (IH' : ∀ fs ch, terminated (parseTokens rec reg tokens fs ch)).
  { intros fs' ch0. apply IH. intros tok k s ch' Hin. apply Hrec.
    rewrite fmap_cons. by apply elem_of_cons; right. }
  assert (Hhd : ∀ k s ch',
     tokenRef reg (GoStrings.TrimSpace raw) k ->
     defaults reg !! k = Some s -> terminated (rec s ch')).
  { intros k s ch'. apply Hrec. rewrite fmap_cons. by apply elem_of_cons; left. }
  simpl.
  destruct (String.eqb _ ""); [apply IH'|].
  destruct (GoStrings.HasPrefixAt _) eqn:Hat.
  - destruct (String.eqb_spec (GoStrings.tail1 (GoStrings.TrimSpace raw))
                "default") as [Hd|Hd].
    + destruct (rangeFirst _ _) as [[d|] ch1] eqn:Hr; [|apply IH'].
      destruct (rangeFirst_Some (defaults reg) ch d) as [k Hk];
        [by rewrite Hr|].
      specialize (Hhd k d ch1). unfold tokenRef in Hhd.
      destruct (rec d ch1) as [[ex ch2]| | |]; [apply IH'|done|done|].
      apply Hhd; [|done]. split; [done|]. split; [by eexists|by left].
    + destruct (defaults reg !! _) as [d|] eqn:Hk; [|done].
      specialize (Hhd (GoStrings.tail1 (GoStrings.TrimSpace raw)) d ch).
      unfold tokenRef in Hhd.
      destruct (rec d ch) as [[ex ch2]| | |]; [apply IH'|done|done|].
      apply Hhd; [|done]. split; [done|]. split; [by eexists|by right].
  - destruct (parseFieldSpec _) as [[[n w] hw]| | |] eqn:Hp; try done.
    + simpl. destruct (get reg n); [|done].
      destruct hw; [destruct (w <=? 0); [done|]|]; apply IH'.
    + unfold parseFieldSpec in Hp. repeat case_match; simplify_eq.
Qed.

Lemma parseSpec_terminates_chain reg :
  acyclic reg ->
  ∀ n path spec ch,
    chain reg path ->
    (∀ k, specRefs reg spec k -> chain reg (k :: path)) ->
    (size (defaults reg) < length path + n)%nat ->
    terminated (parseSpec n reg spec ch).
Proof.
  intros Hac. induction n as [|n IH]; intros path spec ch Hc Hrefs Hlen.
  - pose proof (chain_length _ _ Hac Hc). lia.
  - simpl. apply parseTokens_terminated.
    intros tok k s ch' Hin Href Hs.
    assert (Hk : specRefs reg spec k) by (by exists tok).
    apply (IH (k :: path)); [by apply Hrefs| |simpl; lia].
    intros k2 Hk2. apply chain_cons; [by exists s|by apply Hrefs].
Qed.

(** Once an outcome is reached, a larger budget gives the same outcome. *)
Lemma parseTokens_fuel_mono rec1 rec2 reg tokens fs ch :
  (∀ s ch', terminated (rec1 s ch') -> rec2 s ch' = rec1 s ch') ->
  terminated (parseTokens rec1 reg tokens fs ch) ->
  parseTokens rec2 reg tokens fs ch = parseTokens rec1 reg tokens fs ch.
Proof.
  intros Hrec. revert fs ch; induction tokens as [|raw tokens IH];
    intros fs ch; [done|].
  simpl.
  destruct (String.eqb _ ""); [apply IH|].
  destruct (GoStrings.HasPrefixAt _).
  - destruct (String.eqb _ "default").
    + destruct (rangeFirst _ _) as [[d|] ch1]; [|apply IH].
      specialize (Hrec d ch1).
      destruct (rec1 d ch1) as [[ex ch2]| | |];
        [rewrite Hrec by done; apply IH
        |by rewrite Hrec|by rewrite Hrec|by intros []].
    + destruct (defaults reg !! _) as [d|]; [|done].
      specialize (Hrec d ch).
      destruct (rec1 d ch) as [[ex ch2]| | |];
        [rewrite Hrec by done; apply IH
        |by rewrite Hrec|by rewrite Hrec|by intros []].
  - destruct (parseFieldSpec _) as [[[n w] hw]| | |]; try done. simpl.
    destruct (get reg n); [|done].
    destruct hw; [destruct (w <=? 0); [done|]|]; apply IH.
Qed.

Lemma parseSpec_fuel_mono reg n m spec ch :
  (n <= m)%nat ->
  terminated (parseSpec n reg spec ch) ->
  parseSpec m reg spec ch = parseSpec n reg spec ch.
Proof.
  revert m spec ch; induction n as [|n IH]; intros m spec ch Hle Ht;
    [done|].
  destruct m as [|m]; [lia|]. simpl.
  apply parseTokens_fuel_mono; [|done].
  intros s ch' Hs. apply IH; [lia|done].
Qed.

(** ** Divergence on a reference cycle *)

Lemma parseSpec_diverges_closed reg (L : string -> Prop) :
  (∀ k, L k -> ∃ s k', defaults reg !! k = Some s ∧ L k' ∧ reachesRef reg s k') ->
  ∀ n spec k ch, L k -> reachesRef reg spec k ->
    parseSpec n reg spec ch = OutOfFuel.
Proof.
  intros Hclosed. induction n as [|n IH]; intros spec k ch Hk Hreach; [done|].
  destruct Hreach as (pre & raw & post & Hsplit & Hraw & Hnd & _ & Hpass).
  simpl. rewrite Hsplit, parseTokens_app.
  specialize (Hpass n [] ch).
  destruct (parseTokens (parseSpec n reg) reg pre [] ch) as [[fs ch1]| | |];
    try done.
  simpl. rewrite Hraw. simpl.
  destruct (String.eqb_spec k "default") as [?|_]; [done|].
  destruct (Hclosed k Hk) as (s & k' & -> & Hk' & Hreach').
  by rewrite (IH s k' ch1 Hk' Hreach').
Qed.

(** C8. Spec expansion terminates for every catalog whose reference graph
    (the [@name] references of the registered default specs, together
    with their [@default] references, which may pick any registered
    default) is acyclic: any budget above the number of registered
    defaults is enough, for every spec and every iteration order.  When
    a default spec directly or transitively reaches a reference to its
    own collection name, the expansion of any spec that reaches that
    reference exceeds every budget. *)
Theorem C8_expansion_termination reg :
  (acyclic reg ->
   ∀ spec ch fuel,
     (size (defaults reg) < fuel)%nat ->
     terminated (parseSpec fuel reg spec ch) ∧
     parseSpec fuel reg spec ch =
       parseSpec (S (size (defaults reg))) reg spec ch) ∧
  (∀ k spec,
     tc (reachEdge reg) k k ->
     reachesRef reg spec k ->
     ∀ fuel ch, parseSpec fuel reg spec ch = OutOfFuel).
Proof.
  split.
  - intros Hac spec ch fuel Hfuel.
    assert (Ht : ∀ n, (size (defaults reg) < n)%nat ->
                      terminated (parseSpec n reg spec ch)).
    { intros n Hn.
      apply (parseSpec_terminates_chain reg Hac n []);
        [constructor| |simpl; lia].
      intros k (tok & _ & _ & Hk & _). by constructor. }
    split; [by apply Ht|].
    apply parseSpec_fuel_mono; [lia|]. apply Ht. lia.
  - intros k spec Hcyc Hreach fuel ch.
    apply (parseSpec_diverges_closed reg
             (fun x => rtc (reachEdge reg) k x ∧ tc (reachEdge reg) x k))
      with (k := k); [|by split|done].
    intros x [Hkx Hxk].
    inversion Hxk as [? ? (s & Hs & Hr)|? y ? (s & Hs & Hr) Hyk]; subst.
    + exists s, k. by repeat split.
    + exists s, y. repeat split; try done.
      eapply rtc_r; [done|]. by exists s.
Qed.

(** A catalog whose default specs hold no reference has an acyclic
    reference graph. *)
Lemma acyclic_no_refs reg :
  (∀ k s tok, defaults reg !! k = Some s -> tok ∈ tokensOf s ->
              GoStrings.HasPrefixAt tok = false) ->
  acyclic reg.
Proof.
  intros Hno k Htc.
  assert (He : ∃ y, refEdge reg k y) by (inversion Htc; eauto).
  destruct He as (y & s & Hs & tok & Hin & Hat & _).
  rewrite (Hno k s tok Hs Hin) in Hat. done.
Qed.

(** ** Compilation as a function of the iteration order *)

Lemma rangeFirst_single {V : Type} (m : gmap string V) ch1 ch2 :
  (size m <= 1)%nat -> (rangeFirst m ch1).1 = (rangeFirst m ch2).1.
Proof.
  unfold rangeFirst. rewrite <- length_map_to_list. intros Hsz.
  destruct (map_to_list m) as [|kv [|kv' l]]; simpl in Hsz; [| |lia].
  - by destruct ch1, ch2.
  - destruct ch1 as [|n1 ch1], ch2 as [|n2 ch2]; simpl;
      by rewrite ?Nat.mod_1_r.
Qed.

Lemma parseTokens_choice_irrelevant rec reg tokens fs ch1 ch2 :
  (size (defaults reg) <= 1)%nat ->
  (∀ s c1 c2, dropChoices (rec s c1) = dropChoices (rec s c2)) ->
  dropChoices (parseTokens rec reg tokens fs ch1) =
  dropChoices (parseTokens rec reg tokens fs ch2).
Proof.
  intros Hsz Hrec. revert fs ch1 ch2.
  induction tokens as [|raw tokens IH]; intros fs ch1 ch2; [done|].
  simpl.
  destruct (String.eqb _ ""); [apply IH|].
  destruct (GoStrings.HasPrefixAt _).
  - destruct (String.eqb _ "default").
    + pose proof (rangeFirst_single (defaults reg) ch1 ch2 Hsz) as Hr.
      destruct (rangeFirst (defaults reg) ch1) as [o1 c1],
               (rangeFirst (defaults reg) ch2) as [o2 c2].
      simpl in Hr. subst o2. destruct o1 as [d|]; [|apply IH].
      specialize (Hrec d c1 c2).
      destruct (rec d c1) as [[ex1 c1']| | |], (rec d c2) as [[ex2 c2']| | |];
        simplify_eq/=; first [done | apply IH].
    + destruct (defaults reg !! _) as [d|]; [|done].
      specialize (Hrec d ch1 ch2).
      destruct (rec d ch1) as [[ex1 c1']| | |], (rec d ch2) as [[ex2 c2']| | |];
        simplify_eq/=; first [done | apply IH].
  - destruct (parseFieldSpec _) as [[[n w] hw]| | |]; try done. simpl.
    destruct (get reg n); [|done].
    destruct hw; [destruct (w <=? 0); [done|]|]; apply IH.
Qed.

Lemma parseSpec_choice_irrelevant reg fuel spec ch1 ch2 :
  (size (defaults reg) <= 1)%nat ->
  dropChoices (parseSpec fuel reg spec ch1) =
  dropChoices (parseSpec fuel reg spec ch2).
Proof.
  intros Hsz. revert spec ch1 ch2.
  induction fuel as [|fuel IH]; intros spec ch1 ch2; [done|].
  simpl. by apply parseTokens_choice_irrelevant.
Qed.

(** With at most one registered default spec, the compiled program does not
    depend on the iteration order: compiling twice gives the same program,
    hence the same header, underline and rows. *)
Lemma CompileWithOptions_single_default reg fuel spec opts ch1 ch2 :
  (size (defaults reg) <= 1)%nat ->
  CompileWithOptions fuel reg spec opts ch1 =
  CompileWithOptions fuel reg spec opts ch2.
Proof.
  intros Hsz. unfold CompileWithOptions.
  destruct (String.eqb spec ""); [done|].
  pose proof (parseSpec_choice_irrelevant reg fuel spec ch1 ch2 Hsz) as Hp.
  destruct (parseSpec fuel reg spec ch1) as [[fs1 c1]| | |],
           (parseSpec fuel reg spec ch2) as [[fs2 c2]| | |];
    simplify_eq/=; done.
Qed.

(** ** Programs already built and later catalog mutations *)

(** *** The heap: allocation and the registry's maps *)

Implicit Types (h : list (object (T := T))) (r : RegistryPtr).

Lemma loadRegistry_Some h r reg :
  loadRegistry h r = Some reg ↔
  h !! fieldsAt r = Some (OFieldMap (fields reg)) ∧
  h !! indexAt r = Some (OStringMap (index reg)) ∧
  h !! collectionsAt r = Some (OListMap (collections reg)) ∧
  h !! defaultsAt r = Some (OStringMap (defaults reg)) ∧
  h !! categoriesAt r = Some (OListMap (categories reg)).
Proof.
  unfold loadRegistry. split.
  - intros Hl. repeat (case_match; try done). by simplify_eq/=.
  - intros (-> & -> & -> & -> & ->). by destruct reg.
Qed.

Lemma loadRegistry_prefix h h' r reg :
  h `prefix_of` h' -> loadRegistry h r = Some reg ->
  loadRegistry h' r = Some reg.
Proof.
  intros Hp. rewrite !loadRegistry_Some.
  intros (H1 & H2 & H3 & H4 & H5).
  repeat split; by eapply prefix_lookup_Some.
Qed.

Lemma loadRegistry_kinds h r reg :
  loadRegistry h r = Some reg -> registryKinds h r.
Proof.
  rewrite loadRegistry_Some. intros (H1 & H2 & H3 & H4 & H5).
  unfold registryKinds. by rewrite H1, H2, H3, H4, H5.
Qed.

Lemma loadRegistry_footprint h r reg a :
  loadRegistry h r = Some reg -> a ∈ footprint r -> (a < length h)%nat.
Proof.
  rewrite loadRegistry_Some. intros (H1 & H2 & H3 & H4 & H5).
  unfold footprint. rewrite !elem_of_cons, elem_of_nil.
  intros [->|[->|[->|[->|[->|[]]]]]]; by eapply lookup_lt_Some.
Qed.

(** *** The mutating calls write to the registry's maps only *)

Lemma mutated_refl r h : mutated r h h.
Proof. by split. Qed.

Lemma mutated_trans r h1 h2 h3 :
  mutated r h1 h2 -> mutated r h2 h3 -> mutated r h1 h3.
Proof.
  intros [K1 L1] [K2 L2]. split; [congruence|].
  intros a Ha. by rewrite L2, L1.
Qed.

Lemma mutated_kinds r h h' :
  mutated r h h' -> registryKinds h r -> registryKinds h' r.
Proof.
  intros [K _]. unfold registryKinds.
  by rewrite <- !list_lookup_fmap, K.
Qed.

Lemma mutated_insert r h a o o' :
  a ∈ footprint r -> h !! a = Some o -> kindOf o' = kindOf o ->
  mutated r h (<[a := o']> h).
Proof.
  intros Ha Hl Hk. split.
  - rewrite list_fmap_insert, Hk. apply list_insert_id.
    by rewrite list_lookup_fmap, Hl.
  - intros b Hb. apply list_lookup_insert_ne. by intros ->.
Qed.

Lemma storeField_mutated r a k f0 h :
  a ∈ footprint r -> kindOf <$> h !! a = Some KFieldMap ->
  ∃ h', storeField a k f0 h = Ok h' ∧ mutated r h h'.
Proof.
  intros Ha Hk. unfold storeField.
  destruct (h !! a) as [[]|] eqn:E; simplify_eq/=.
  eexists; split; [done|]. by eapply mutated_insert.
Qed.

Lemma storeString_mutated r a k x h :
  a ∈ footprint r -> kindOf <$> h !! a = Some KStringMap ->
  ∃ h', storeString a k x h = Ok h' ∧ mutated r h h'.
Proof.
  intros Ha Hk. unfold storeString.
  destruct (h !! a) as [[]|] eqn:E; simplify_eq/=.
  eexists; split; [done|]. by eapply mutated_insert.
Qed.

Lemma storeList_mutated r a k xs h :
  a ∈ footprint r -> kindOf <$> h !! a = Some KListMap ->
  ∃ h', storeList a k xs h = Ok h' ∧ mutated r h h'.
Proof.
  intros Ha Hk. unfold storeList.
  destruct (h !! a) as [[]|] eqn:E; simplify_eq/=.
  eexists; split; [done|]. by eapply mutated_insert.
Qed.

Lemma appendList_mutated r a k x h :
  a ∈ footprint r -> kindOf <$> h !! a = Some KListMap ->
  ∃ h', appendList a k x h = Ok h' ∧ mutated r h h'.
Proof.
  intros Ha Hk. unfold appendList.
  destruct (h !! a) as [[]|] eqn:E; simplify_eq/=.
  eexists; split; [done|]. by eapply mutated_insert.
Qed.

(** Every mutating call on a registry returns, and changes the registry's
    maps only. *)
Lemma mutateAt_mutated m r h :
  registryKinds h r -> ∃ h', mutateAt m r h = Ok h' ∧ mutated r h h'.
Proof.
  intros K. destruct m as [b|name defaultSpec fs|collectionName spec]; simpl.
  - unfold FieldBuilder_RegisterAt.
    destruct (storeField_mutated r (fieldsAt r) (Name (field b)) (field b) h)
      as (h1 & -> & M1); [set_solver|apply K|].
    pose proof (mutated_kinds _ _ _ M1 K) as K1. simpl.
    destruct (storeString_mutated r (indexAt r) (ToLower (Name (field b)))
                (Name (field b)) h1) as (h2 & -> & M2); [set_solver|apply K1|].
    pose proof (mutated_kinds _ _ _ M2 K1) as K2. simpl.
    edestruct (appendList_mutated r (categoriesAt r)) as (h3 & -> & M3);
      [set_solver|apply K2|].
    eexists; split; [done|]. eauto using mutated_trans.
  - unfold DefineCollectionAt.
    destruct (storeList_mutated r (collectionsAt r) name fs h)
      as (h1 & -> & M1); [set_solver|apply K|].
    pose proof (mutated_kinds _ _ _ M1 K) as K1. simpl.
    destruct (storeString_mutated r (defaultsAt r) name defaultSpec h1)
      as (h2 & -> & M2); [set_solver|apply K1|].
    eexists; split; [done|]. eauto using mutated_trans.
  - unfold SetDefaultsAt.
    apply storeString_mutated; [set_solver|apply K].
Qed.

Lemma mutateAllAt_mutated ms r h :
  registryKinds h r -> ∃ h', mutateAllAt ms r h = Ok h' ∧ mutated r h h'.
Proof.
  revert h; induction ms as [|m ms IH]; intros h K; simpl.
  - eexists; split; [done|apply mutated_refl].
  - destruct (mutateAt_mutated m r h K) as (h1 & -> & M1). simpl.
    destruct (IH h1 (mutated_kinds _ _ _ M1 K)) as (h2 & -> & M2).
    eexists; split; [done|]. eauto using mutated_trans.
Qed.

(** *** What compilation allocates *)

Lemma lookup_snoc_here {A : Type} (l : list A) (x : A) :
  (l ++ [x]) !! length l = Some x.
Proof. by apply list_lookup_middle. Qed.

Lemma makeWriterAt_spec f noPad h :
  ∃ c, makeWriterAt f noPad h = (c, h ++ [OVar f]) ∧
    widthAt c = width (makeWriter f noPad) ∧
    ∀ h2, h2 !! length h = Some (OVar f) ->
      ∀ line v tmp,
        writeAt c h2 line v tmp = write (makeWriter f noPad) line v tmp.
Proof.
  unfold makeWriterAt, makeWriter, alloc.
  destruct (Kind f =? KindString); [|destruct (Kind f =? KindInt);
    [|destruct (Kind f =? KindFloat); [|destruct (Kind f =? KindCustom)]]];
    (eexists; split; [reflexivity|]; split; [reflexivity|];
     intros h2 Hh2 line v tmp; simpl; unfold withVar; by rewrite Hh2).
Qed.

Lemma capturedColumn_mono (n n' : nat) h h' c c0 :
  (n' <= n)%nat -> h `prefix_of` h' ->
  capturedColumn n h c c0 -> capturedColumn n' h' c c0.
Proof.
  intros Hn Hp (Hw & a & f & Ha & Hl & Hc). split; [done|].
  exists a, f. split; [lia|]. split; [by eapply prefix_lookup_Some|done].
Qed.

Lemma makeWritersAt_spec noPadding padLast n fs : ∀ i h,
  ∃ cs, makeWritersAt noPadding padLast n i fs h = (cs, h ++ (OVar <$> fs)) ∧
    Forall2 (capturedColumn (length h) (h ++ (OVar <$> fs))) cs
      (imap (fun j f => makeWriter f (noPadAt noPadding padLast n (i + j))) fs).
Proof.
  induction fs as [|f fs IH]; intros i h; cbn [makeWritersAt fmap list_fmap].
  - exists []. rewrite app_nil_r. split; [done|constructor].
  - destruct (makeWriterAt_spec f (noPadAt noPadding padLast n i) h)
      as (c & -> & Hw & Hc).
    destruct (IH (S i) (h ++ [OVar f])) as (cs & -> & Hcs).
    exists (c :: cs). rewrite <- app_assoc. split; [done|].
    constructor.
    + split; [by rewrite Nat.add_0_r|].
      exists (length h), f. split; [done|]. split.
      * by rewrite lookup_app_r, Nat.sub_diag by done.
      * rewrite Nat.add_0_r. exact Hc.
    + rewrite <- app_assoc in Hcs. simpl in Hcs.
      erewrite imap_ext; [eapply Forall2_impl; [exact Hcs|]|].
      * intros c' c0 Hcc. eapply capturedColumn_mono; [| |exact Hcc]; [|done].
        rewrite length_app. simpl. lia.
      * intros j f' _. simpl. by rewrite Nat.add_succ_r.
Qed.

(** [CompileWithOptions] on the registry in memory refines
    [CompileWithOptions] on the value that the registry's maps hold when it
    is called: the same error, or the same program, laid out in memory
    that the call allocates. *)
Lemma CompileWithOptionsAt_refines fuel r spec opts ch h reg :
  loadRegistry h r = Some reg ->
  match CompileWithOptions fuel reg spec opts ch with
  | Ok p0 =>
      ∃ pa h1, CompileWithOptionsAt fuel r spec opts ch h = Ok (pa, h1) ∧
        h `prefix_of` h1 ∧ builtAs (length h) pa h1 p0
  | Err e => CompileWithOptionsAt fuel r spec opts ch h = Err e
  | Panic => CompileWithOptionsAt fuel r spec opts ch h = Panic
  | OutOfFuel => CompileWithOptionsAt fuel r spec opts ch h = OutOfFuel
  end.
Proof.
  intros Hl. unfold CompileWithOptions, CompileWithOptionsAt. rewrite Hl.
  destruct (String.eqb spec ""); [done|].
  destruct (parseSpec fuel reg spec ch) as [[fs ch']| | |]; simpl; try done.
  destruct (length fs =? 0)%nat; [done|].
  destruct (if negb (NoHeader opts) then buildHeader _ _ _ _ else Ok [])
    as [hd| | |] eqn:Ehd; simpl; try done.
  destruct (NoHeader opts), (NoUnderline opts); simpl;
    match goal with
    | |- context [makeWritersAt ?a ?b ?n ?i ?fs0 ?hh] =>
        destruct (makeWritersAt_spec a b n fs0 i hh) as (cs & -> & Hcs)
    end;
    (eexists _, _; split; [reflexivity|]; split;
     [rewrite <- ?app_assoc; by apply prefix_app_r|]).
  all: simplify_eq/=.
  all: unfold builtAs, sliceHolds; simpl.
  all: repeat split;
    try (rewrite ?length_app; simpl; lia);
    try (repeat first [apply lookup_snoc_here | apply lookup_app_l_Some]).
  all: (eapply Forall2_impl; [exact Hcs|]);
    intros c c0 Hcc; (eapply capturedColumn_mono; [|reflexivity|exact Hcc]);
    rewrite ?length_app; simpl; lia.
Qed.


(** *** Rendering reads the program's own cells only *)

Lemma sliceHolds_readSlice (n : nat) h s b :
  sliceHolds n h s b -> readSlice h s = Ok b.
Proof.
  unfold sliceHolds, readSlice. destruct s as [a|].
  - by intros [_ ->].
  - by intros ->.
Qed.

Lemma builtAs_agree (n : nat) pa h h' p :
  (∀ a, (n <= a)%nat -> h' !! a = h !! a) ->
  builtAs n pa h p -> builtAs n pa h' p.
Proof.
  intros Hag (Hh & Hu & Hs & Hc).
  assert (Hsl : ∀ s b, sliceHolds n h s b -> sliceHolds n h' s b).
  { intros [a|] b; simpl; [|done]. intros [Ha Hl]. by rewrite Hag. }
  repeat split; [by apply Hsl..|].
  eapply Forall2_impl; [exact Hc|].
  intros c c0 (Hw & a & f & Ha & Hl & Hwr). split; [done|].
  exists a, f. by rewrite Hag.
Qed.

Lemma rangeFrom_Forall2 {A B St : Type} (R : A -> B -> Prop)
    (l1 : list A) (l2 : list B) (body1 : nat -> A -> St -> outcome St)
    (body2 : nat -> B -> St -> outcome St) :
  Forall2 R l1 l2 ->
  (∀ i x y s, R x y -> body1 i x s = body2 i y s) ->
  ∀ i s, rangeFrom i l1 body1 s = rangeFrom i l2 body2 s.
Proof.
  intros HF Hb. induction HF as [|x y l1 l2 HR HF IH]; intros i s; [done|].
  cbn [rangeFrom]. rewrite (Hb i x y s HR).
  destruct (body2 i y s); simpl; [apply IH|done..].
Qed.

Lemma builtAs_rows (n : nat) pa h p v tmp line :
  builtAs n pa h p ->
  forRange (columnsAt pa) (fun i c '(line, tmp) =>
      line ← (if (0 <? i)%nat
              then sep ← readSlice h (separatorAt pa); Ok (line ++ sep)
              else Ok line);
      writeAt c h line v tmp) (line, tmp) =
  forRange (columns p) (fun i c '(line, tmp) =>
      let line := if (0 <? i)%nat then line ++ separator p else line in
      write c line v tmp) (line, tmp).
Proof.
  intros (_ & _ & Hs & Hc). unfold forRange.
  apply (rangeFrom_Forall2 (capturedColumn n h)); [done|].
  intros i c c0 [l t] (_ & a & f & _ & Hl & Hwr).
  rewrite (sliceHolds_readSlice _ _ _ _ Hs).
  destruct (0 <? i)%nat; simpl; by apply Hwr.
Qed.

Lemma builtAs_rendersAs (n : nat) pa h p :
  builtAs n pa h p -> rendersAs pa h p.
Proof.
  intros Hb. pose proof Hb as (Hh & Hu & Hs & Hc).
  unfold rendersAs. repeat split.
  - unfold HeaderStringAt. by rewrite (sliceHolds_readSlice _ _ _ _ Hh).
  - unfold WriteHeaderAt, WriteHeader.
    rewrite (sliceHolds_readSlice _ _ _ _ Hh). simpl.
    by destruct (Write w _).
  - unfold WriteUnderlineAt, WriteUnderline.
    rewrite (sliceHolds_readSlice _ _ _ _ Hu). simpl.
    by destruct (Write w _).
  - intros v tmp line. unfold FormatRowAt, FormatRow.
    by rewrite (builtAs_rows n pa h p v tmp [] Hb).
  - intros W Wr w v tmp line. unfold WriteRowAt, WriteRow.
    by rewrite (builtAs_rows n pa h p v tmp [] Hb).
Qed.

(** *** The registry's maps after the mutating calls *)

Lemma storeField_load a k f0 h m :
  h !! a = Some (OFieldMap m) ->
  storeField a k f0 h = Ok (<[a := OFieldMap (<[k := f0]> m)]> h).
Proof. unfold storeField. by intros ->. Qed.

Lemma storeString_load a k x h m :
  h !! a = Some (OStringMap m) ->
  storeString a k x h = Ok (<[a := OStringMap (<[k := x]> m)]> h).
Proof. unfold storeString. by intros ->. Qed.

Lemma storeList_load a k xs h m :
  h !! a = Some (OListMap m) ->
  storeList a k xs h = Ok (<[a := OListMap (<[k := xs]> m)]> h).
Proof. unfold storeList. by intros ->. Qed.

Lemma appendList_load a k x h m :
  h !! a = Some (OListMap m) ->
  appendList a k x h =
    Ok (<[a := OListMap (<[k := default [] (m !! k) ++ [x]]> m)]> h).
Proof. unfold appendList. by intros ->. Qed.

(** A mutating call on the registry in memory is the same call on the
    value that its maps hold, when the struct's maps are five maps. *)
Lemma mutateAt_load m r h reg h' :
  indexAt r ≠ defaultsAt r -> collectionsAt r ≠ categoriesAt r ->
  loadRegistry h r = Some reg -> mutateAt m r h = Ok h' ->
  loadRegistry h' r = Some (mutate m reg).
Proof.
  intros Hid Hcc Hl Hm.
  apply loadRegistry_Some in Hl as (H1 & H2 & H3 & H4 & H5).
  assert (fieldsAt r ≠ indexAt r) by (intros E; rewrite E in H1; congruence).
  assert (fieldsAt r ≠ collectionsAt r)
    by (intros E; rewrite E in H1; congruence).
  assert (fieldsAt r ≠ defaultsAt r) by (intros E; rewrite E in H1; congruence).
  assert (fieldsAt r ≠ categoriesAt r)
    by (intros E; rewrite E in H1; congruence).
  assert (indexAt r ≠ collectionsAt r)
    by (intros E; rewrite E in H2; congruence).
  assert (indexAt r ≠ categoriesAt r)
    by (intros E; rewrite E in H2; congruence).
  assert (collectionsAt r ≠ defaultsAt r)
    by (intros E; rewrite E in H3; congruence).
  assert (defaultsAt r ≠ categoriesAt r)
    by (intros E; rewrite E in H4; congruence).
  pose proof (lookup_lt_Some _ _ _ H1). pose proof (lookup_lt_Some _ _ _ H2).
  pose proof (lookup_lt_Some _ _ _ H3). pose proof (lookup_lt_Some _ _ _ H4).
  pose proof (lookup_lt_Some _ _ _ H5).
  destruct m as [b|name defaultSpec fs|collectionName spec]; simpl in Hm.
  - unfold FieldBuilder_RegisterAt in Hm.
    rewrite (storeField_load _ _ _ _ _ H1) in Hm. simpl in Hm.
    erewrite storeString_load in Hm
      by (rewrite list_lookup_insert_ne by done; exact H2).
    simpl in Hm.
    erewrite appendList_load in Hm
      by (rewrite !list_lookup_insert_ne by done; exact H5).
    simplify_eq. apply loadRegistry_Some. simpl.
    rewrite !list_lookup_insert, !length_insert.
    repeat split; repeat case_decide; destruct_and?; try done; try lia;
      exfalso; naive_solver.
  - unfold DefineCollectionAt in Hm.
    rewrite (storeList_load _ _ _ _ _ H3) in Hm. simpl in Hm.
    erewrite storeString_load in Hm
      by (rewrite list_lookup_insert_ne by done; exact H4).
    simplify_eq. apply loadRegistry_Some. simpl.
    rewrite !list_lookup_insert, !length_insert.
    repeat split; repeat case_decide; destruct_and?; try done; try lia;
      exfalso; naive_solver.
  - unfold SetDefaultsAt in Hm.
    rewrite (storeString_load _ _ _ _ _ H4) in Hm.
    simplify_eq. apply loadRegistry_Some. simpl.
    rewrite !list_lookup_insert.
    repeat split; repeat case_decide; destruct_and?; try done; try lia;
      exfalso; naive_solver.
Qed.

Lemma mutateAllAt_load ms r : ∀ h reg h',
  indexAt r ≠ defaultsAt r -> collectionsAt r ≠ categoriesAt r ->
  loadRegistry h r = Some reg -> mutateAllAt ms r h = Ok h' ->
  loadRegistry h' r = Some (foldl (fun reg0 m => mutate m reg0) reg ms).
Proof.
  induction ms as [|m ms IH]; intros h reg h' Hid Hcc Hl Hm; simpl in *.
  - by simplify_eq.
  - destruct (mutateAt m r h) as [hm| | |] eqn:Em; simplify_eq/=.
    eapply IH; [done..| |exact Hm]. by eapply mutateAt_load.
Qed.

(** C7. A program compiled from the catalog is not affected by later
    mutations of the catalog.  The registry's maps, the variables that the
    writer closures capture and the backing arrays of the program's slices
    share one memory.  When [CompileWithOptions] returns a program, it is
    the program of the catalog as it was at that call, and after any
    sequence of later [Register], [DefineCollection] and [SetDefaults]
    calls on the same registry (each of which returns, and which together
    turn the catalog into the mutated one) the header, the underline and
    the rendering of every row are still those of that program. *)
Theorem C7_program_unaffected_by_catalog_mutation
    fuel r spec opts ch h pa h1 ms :
  CompileWithOptionsAt fuel r spec opts ch h = Ok (pa, h1) ->
  ∃ reg p h2,
    loadRegistry h r = Some reg ∧
    CompileWithOptions fuel reg spec opts ch = Ok p ∧
    rendersAs pa h1 p ∧
    mutateAllAt ms r h1 = Ok h2 ∧
    (indexAt r ≠ defaultsAt r -> collectionsAt r ≠ categoriesAt r ->
     loadRegistry h2 r = Some (foldl (fun reg0 m => mutate m reg0) reg ms)) ∧
    rendersAs pa h2 p.
Proof.
  intros Hc.
  destruct (loadRegistry h r) as [reg|] eqn:Hl; cycle 1.
  { unfold CompileWithOptionsAt in Hc. rewrite Hl in Hc.
    by destruct (String.eqb spec ""). }
  pose proof (CompileWithOptionsAt_refines fuel r spec opts ch h reg Hl) as Hr.
  destruct (CompileWithOptions fuel reg spec opts ch) as [p| | |] eqn:Ep;
    try congruence.
  destruct Hr as (pa' & h1' & Hc' & Hp & Hb).
  assert (pa' = pa ∧ h1' = h1) as [-> ->] by (split; congruence).
  pose proof (loadRegistry_prefix _ _ _ _ Hp Hl) as Hl1.
  destruct (mutateAllAt_mutated ms r h1 (loadRegistry_kinds _ _ _ Hl1))
    as (h2 & Hm & [_ Hfr]).
  exists reg, p, h2. split; [done|]. split; [done|].
  split; [by eapply builtAs_rendersAs|]. split; [done|].
  split; [intros Hid Hcc; by eapply mutateAllAt_load|].
  eapply builtAs_rendersAs, builtAs_agree; [|exact Hb].
  intros a Ha. apply Hfr. intros Hin.
  pose proof (loadRegistry_footprint _ _ _ _ Hl Hin). lia.
Qed.

End Properties.

(** * The scenarios of the examples and tests *)

Section Scenarios.

Context `{GoLib}.

(** C1 (the code at the inputs of TestFormatString and Example_csv).  The
    last column of a program compiled with the default options, and every
    column of a program compiled with [NoPadding], is still padded with
    spaces to its width: [makeWriter] does not consult its padding flag. *)
Theorem C1_no_pad_columns_are_padded fuel ch tmp line :
  (∃ p, Compile (S fuel) (nameRegistry 10) "name" ch = Ok p ∧
        FormatRow p alice tmp line =
          Ok ("Alice     ", tmp, list_ascii_of_string "Alice     ")) ∧
  (∃ p, CompileWithOptions (S fuel) (nameAgeRegistry 5 3) "name,age"
          csvOptions ch = Ok p ∧
        FormatRow p bob tmp line =
          Ok ("Bob  ,25 ", list_ascii_of_string "25",
              list_ascii_of_string "Bob  ,25 ")).
Proof. split; eexists; split; reflexivity. Qed.

(** C2 (the code with two registered default specs).  Two compilations of
    the spec [@default] against the same catalog render the same record
    differently when the iteration over the defaults map starts at
    different entries. *)
Theorem C2_default_depends_on_iteration_order fuel tmp line :
  ∃ p1 p2,
    Compile (S (S fuel)) twoDefaultsRegistry "@default" [0%nat] = Ok p1 ∧
    Compile (S (S fuel)) twoDefaultsRegistry "@default" [1%nat] = Ok p2 ∧
    FormatRow p1 alice tmp line =
      Ok ("Alice     ", tmp, list_ascii_of_string "Alice     ") ∧
    FormatRow p2 alice tmp line =
      Ok ("30  ", list_ascii_of_string "30", list_ascii_of_string "30  ").
Proof. do 2 eexists. repeat split; reflexivity. Qed.

(** C3 (amended).  Scenario A: for the catalog with string field [name]
    of width 10 and int field [age] of width 4, compiling ["name,age"]
    with the default options gives the header ["Name        Age"] (the
    display text padded to width 10, the two-space separator, the last
    display text), and the row of [{Name:"Alice", Age:30}] begins with
    ["Alice       30"]. *)
Theorem C3_scenario_A fuel ch tmp line :
  ∃ p row tmp' line',
    Compile (S fuel) (nameAgeRegistry 10 4) "name,age" ch = Ok p ∧
    HeaderString p = "Name        Age" ∧
    FormatRow p alice tmp line = Ok (row, tmp', line') ∧
    String.prefix "Alice       30" row = true.
Proof. do 4 eexists. repeat split; reflexivity. Qed.

End Scenarios.

(** * Closed instances *)

#[local] Existing Instance asciiLib.

Lemma acyclic_basicRegistry : acyclic (basicRegistry (H := asciiLib)).
Proof.
  apply acyclic_no_refs. intros k s tok Hs Hin.
  unfold basicRegistry, DefineCollection in Hs. simpl in Hs.
  apply lookup_insert_Some in Hs as [[_ <-]|[_ Hs]]; [|done].
  change (tokensOf "name,age") with ["name"; "age"] in Hin.
  repeat (apply elem_of_cons in Hin as [->|Hin]; [done|]).
  by apply elem_of_nil in Hin.
Qed.

Lemma C3_counterexample :
  ∃ p row tmp' line',
    Compile (H := asciiLib) 1 (nameAgeRegistry 10 4) "name,age" [] = Ok p ∧
    FormatRow p alice [] [] = Ok (row, tmp', line') ∧
    HeaderString p ≠ "Name      Age" ∧
    row ≠ "Alice     30".
Proof.
  do 4 eexists. split; [reflexivity|]. split; [reflexivity|].
  split; discriminate.
Qed.

Lemma C4_witness :
  fieldValue (H := asciiLib) (nameField 5) alexandria =
    Some (list_ascii_of_string "Alexandria") ∧
  0 < Width (nameField (H := asciiLib) 5) ∧
  Width (nameField (H := asciiLib) 5) < blen (list_ascii_of_string "Alexandria") ∧
  ∃ tmp',
    write (makeWriter (nameField (H := asciiLib) 5) true) [] alexandria [] =
      Ok (list_ascii_of_string "Alexa", tmp').
Proof.
  split; [reflexivity|]. split; [reflexivity|]. split; [reflexivity|].
  destruct (C4_truncation_is_prefix (H := asciiLib) (nameField 5) true
              alexandria (list_ascii_of_string "Alexandria") [] []
              eq_refl eq_refl eq_refl) as (tmp' & Hw & _).
  exists tmp'. exact Hw.
Defined.

Lemma C5_counterexample :
  fieldValue (H := asciiLib) (nameField 3) trailing =
    Some (list_ascii_of_string "a ") ∧
  blen (list_ascii_of_string "a ") <= Width (nameField (H := asciiLib) 3) ∧
  write (makeWriter (nameField (H := asciiLib) 3) false) [] trailing [] =
    Ok (list_ascii_of_string "a  ", []) ∧
  trimRightSpaces (list_ascii_of_string "a  ") ≠ list_ascii_of_string "a ".
Proof. repeat split; done. Qed.

Lemma C5_witness :
  fieldValue (H := asciiLib) (nameField 10) alice =
    Some (list_ascii_of_string "Alice") ∧
  blen (list_ascii_of_string "Alice") <= Width (nameField (H := asciiLib) 10) ∧
  ∃ rendered tmp',
    write (makeWriter (nameField (H := asciiLib) 10) false) [] alice [] =
      Ok (rendered, tmp') ∧
    trimRightSpaces rendered = list_ascii_of_string "Alice".
Proof.
  split; [reflexivity|]. split; [discriminate|].
  destruct (C5_padding_roundtrip (H := asciiLib) (nameField 10) alice
              (list_ascii_of_string "Alice") [] [] eq_refl
              ltac:(discriminate)) as (rendered & tmp' & Hw & _ & _ & Ht).
  exists rendered, tmp'. split; [exact Hw|]. apply Ht. discriminate.
Defined.

Lemma C6_counterexample :
  ∃ e, CompileWithOptions (H := asciiLib) 1 (nameAgeRegistry 10 4) "xyz:0"
         defaultOptions [] = Err e ∧
       e = UnknownField "xyz" ∧ ¬ isInvalidWidth e.
Proof. eexists. split; [reflexivity|]. split; [done|]. by intros []. Qed.

Lemma C6_witness :
  CompileWithOptions (H := asciiLib) 1 (nameAgeRegistry 10 4) "age, name:0"
    defaultOptions [] = Err (InvalidWidth 0 "name") ∧
  CompileWithOptions (H := asciiLib) 1 (nameAgeRegistry 10 4) "age, nom:0"
    defaultOptions [] = Err (UnknownField "nom") ∧
  ∃ e, CompileWithOptions (H := asciiLib) 1 (nameAgeRegistry 10 4) "nom:1x"
         defaultOptions [] = Err e ∧ isInvalidWidth e.
Proof.
  split; [|split].
  - refine (proj1 (proj2 (C6_invalid_width (H := asciiLib)
      (nameAgeRegistry 10 4) 0 "age, name:0" defaultOptions [] ["age"]
      " name:0" [] _ [] "name:0" 4%nat eq_refl eq_refl eq_refl eq_refl
      eq_refl) 0 eq_refl _) _); [discriminate|]. by eexists.
  - refine (proj2 (proj2 (C6_invalid_width (H := asciiLib)
      (nameAgeRegistry 10 4) 0 "age, nom:0" defaultOptions [] ["age"]
      " nom:0" [] _ [] "nom:0" 3%nat eq_refl eq_refl eq_refl eq_refl
      eq_refl) 0 eq_refl _) eq_refl). discriminate.
  - destruct (proj1 (C6_invalid_width (H := asciiLib)
      (nameAgeRegistry 10 4) 0 "nom:1x" defaultOptions [] []
      "nom:1x" [] [] [] "nom:1x" 3%nat eq_refl eq_refl eq_refl eq_refl
      eq_refl) eq_refl) as (e & He & Hi & _).
    exists e. by split.
Defined.

Lemma C7_witness :
  ∃ h pa h1,
    nameAgeHeap (H := asciiLib) = Ok h ∧
    CompileWithOptionsAt (H := asciiLib) 1 registry0 "name,age"
      defaultOptions [] h = Ok (pa, h1) ∧
    ∃ reg p h2,
      loadRegistry h registry0 = Some reg ∧
      CompileWithOptions 1 reg "name,age" defaultOptions [] = Ok p ∧
      rendersAs pa h1 p ∧
      mutateAllAt laterCalls registry0 h1 = Ok h2 ∧
      (indexAt registry0 ≠ defaultsAt registry0 ->
       collectionsAt registry0 ≠ categoriesAt registry0 ->
       loadRegistry h2 registry0 =
         Some (foldl (fun reg0 m => mutate m reg0) reg laterCalls)) ∧
      rendersAs pa h2 p.
Proof.
  eexists _, _, _. split; [reflexivity|]. split; [reflexivity|].
  apply (C7_program_unaffected_by_catalog_mutation (H := asciiLib) 1%nat
           registry0 "name,age" defaultOptions []).
  reflexivity.
Defined.

(** TestHeaderAndUnderline's program and the later calls, evaluated: the
    program compiled before the calls keeps its header and its rows, and a
    program compiled after them has those of the new registration. *)
Example program_before_and_after_laterCalls :
  ∃ h pa h1 h2 pb h3,
    nameAgeHeap (H := asciiLib) = Ok h ∧
    CompileWithOptionsAt 1 registry0 "name,age" defaultOptions [] h
      = Ok (pa, h1) ∧
    mutateAllAt laterCalls registry0 h1 = Ok h2 ∧
    CompileWithOptionsAt 1 registry0 "name,age" defaultOptions [] h2
      = Ok (pb, h3) ∧
    HeaderStringAt pa h1 = Ok "Name        Age" ∧
    HeaderStringAt pa h3 = Ok "Name        Age" ∧
    HeaderStringAt pb h3 = Ok "N    Age" ∧
    FormatRowAt pa h1 alice [] [] =
      Ok ("Alice       30   ", list_ascii_of_string "30",
          list_ascii_of_string "Alice       30   ") ∧
    FormatRowAt pa h3 alice [] [] = FormatRowAt pa h1 alice [] [] ∧
    FormatRowAt pb h3 alice [] [] =
      Ok ("cha  30   ", list_ascii_of_string "30",
          list_ascii_of_string "cha  30   ").
Proof.
  eexists _, _, _, _, _, _.
  split; [reflexivity|]. split; [reflexivity|]. split; [reflexivity|].
  split; [reflexivity|]. repeat split; vm_compute; reflexivity.
Qed.

(** The memory model does not by itself keep programs apart from the
    catalog: a column whose writer looked its field up in the registry's
    map at each call, instead of referring to the copy that [makeWriter]
    received, renders another row after the later calls. *)
Example column_reading_the_registry_is_affected :
  ∃ h h2,
    nameAgeHeap (H := asciiLib) = Ok h ∧
    mutateAllAt laterCalls registry0 h = Ok h2 ∧
    let c := {| widthAt := 10;
                writeAt := fun h0 line v tmp =>
                  match h0 !! fieldsAt registry0 with
                  | Some (OFieldMap m) =>
                      match m !! "name" with
                      | Some f => write (makeWriter f false) line v tmp
                      | None => Panic
                      end
                  | _ => Panic
                  end |} in
    let pa := {| headerAt := None; underlineAt := None; separatorAt := None;
                 columnsAt := [c] |} in
    FormatRowAt pa h alice [] [] =
      Ok ("Alice     ", [], list_ascii_of_string "Alice     ") ∧
    FormatRowAt pa h2 alice [] [] =
      Ok ("cha", [], list_ascii_of_string "cha").
Proof.
  eexists _, _. split; [reflexivity|]. split; [reflexivity|].
  split; vm_compute; reflexivity.
Qed.

Lemma C8_witness :
  terminated (parseSpec (H := asciiLib) 2 basicRegistry "@basic,age" []) ∧
  parseSpec (H := asciiLib) 50 selfRefRegistry "age,@a" [] = OutOfFuel.
Proof.
  split.
  - apply (proj1 (C8_expansion_termination (H := asciiLib) basicRegistry)
             acyclic_basicRegistry "@basic,age" [] 2%nat).
    vm_compute. lia.
  - apply (proj2 (C8_expansion_termination (H := asciiLib) selfRefRegistry)
             "a" "age,@a").
    + apply tc_once. exists "name,@a". split; [reflexivity|].
      exists ["name"], "@a", []. split; [reflexivity|]. split; [reflexivity|].
      split; [discriminate|]. split; [by eexists|]. intros n fs ch. exact I.
    + exists ["age"], "@a", []. split; [reflexivity|]. split; [reflexivity|].
      split; [discriminate|]. split; [by eexists|]. intros n fs ch. exact I.
Defined.

Lemma C10_witness :
  defaults (nameAgeRegistry (H := asciiLib) 10 4) = ∅ ∧
  CompileWithOptions (H := asciiLib) 1 (nameAgeRegistry 10 4) "@default"
    defaultOptions [] = Err NoFields.
Proof.
  split; [reflexivity|].
  apply (proj2 (C10_default_without_defaults (H := asciiLib)
                  (nameAgeRegistry 10 4) eq_refl) 0%nat defaultOptions []).
Defined.

(** * Further properties of the package *)

Section FurtherProperties.

Context `{GoLib} {T : Type}.

Implicit Types (f : Field (T := T)) (reg r : Registry (T := T))
  (p : Program (T := T)) (v : T) (line tmp dst val : bytes)
  (fs : list (Field (T := T))).

(** ** Padding in closed form *)

Lemma padBytesLeft_negative dst val w : w < 0 -> padBytesLeft dst val w = Panic.
Proof.
  intros Hw. unfold padBytesLeft, blen.
  destruct (Z.gtb_spec (Z.of_nat (length val)) w); [|lia].
  by destruct (Z.ltb_spec w 0); [|lia].
Qed.

Lemma padBytesLeft_closed dst val w :
  0 <= w ->
  padBytesLeft dst val w =
    Ok (dst ++ take (Z.to_nat w) (val ++ replicate (Z.to_nat w) " "%char)).
Proof.
  intros Hw. destruct (Z.lt_ge_cases w (blen val)) as [Hlt|Hge].
  - rewrite padBytesLeft_truncate by done.
    rewrite take_app_le by (unfold blen in Hlt; lia). done.
  - rewrite padBytesLeft_pad by done. unfold blen in *.
    rewrite take_app_ge, take_replicate by lia.
    do 4 f_equal. lia.
Qed.

Lemma padded_length val w (c : ascii) :
  0 <= w -> blen (take (Z.to_nat w) (val ++ replicate (Z.to_nat w) c)) = w.
Proof.
  intros Hw. unfold blen.
  rewrite length_take, length_app, length_replicate. lia.
Qed.

(** X1. [padBytesLeft] (and so [padLeft]) panics exactly for a negative
    width; for a width [w >= 0] it leaves [dst] in place and appends the
    first [w] bytes of the value followed by [w] spaces: exactly [w] bytes,
    whether the value is shorter or longer than [w]. *)
Theorem X1_padBytesLeft_shape dst val w :
  (w < 0 -> padBytesLeft dst val w = Panic) ∧
  (0 <= w ->
     padBytesLeft dst val w =
       Ok (dst ++ take (Z.to_nat w) (val ++ replicate (Z.to_nat w) " "%char)) ∧
     blen (take (Z.to_nat w) (val ++ replicate (Z.to_nat w) " "%char)) = w).
Proof.
  split; [apply padBytesLeft_negative|].
  intros Hw. split; [by apply padBytesLeft_closed|by apply padded_length].
Qed.

(** ** Columns of fixed width *)

Lemma makeWriter_outcome f noPad v line tmp :
  0 <= Width f ->
  match write (makeWriter f noPad) line v tmp with
  | Ok (line', _) => ∃ out, line' = line ++ out ∧ blen out = Width f
  | Panic =>
      fieldValue f v = None ∧
      (Kind f = KindString ∨ Kind f = KindInt ∨ Kind f = KindFloat ∨
       Kind f = KindCustom)
  | _ => False
  end.
Proof.
  intros Hw. unfold makeWriter, fieldValue, padLeft.
  destruct (Z.eqb_spec (Kind f) KindString).
  { destruct (GetString f) as [g|]; simpl; [|auto].
    rewrite padBytesLeft_closed by done. simpl.
    eexists. split; [done|]. by apply padded_length. }
  destruct (Z.eqb_spec (Kind f) KindInt).
  { destruct (GetInt f) as [g|]; simpl; [|auto].
    rewrite padBytesLeft_closed by done. simpl.
    eexists. split; [done|]. by apply padded_length. }
  destruct (Z.eqb_spec (Kind f) KindFloat).
  { destruct (GetFloat f) as [g|]; simpl; [|auto].
    rewrite padBytesLeft_closed by done. simpl.
    eexists. split; [done|]. by apply padded_length. }
  destruct (Z.eqb_spec (Kind f) KindCustom).
  { destruct (GetCustom f) as [g|]; simpl; [|auto 6].
    rewrite padBytesLeft_closed by done. simpl.
    eexists. split; [done|]. by apply padded_length. }
  simpl. rewrite appendN_replicate. eexists. split; [done|].
  unfold blen. rewrite length_replicate. lia.
Qed.

Lemma makeWriter_fixed f noPad v line tmp line' tmp' :
  0 <= Width f ->
  write (makeWriter f noPad) line v tmp = Ok (line', tmp') ->
  blen line' = blen line + Width f.
Proof.
  intros Hw Hwr. pose proof (makeWriter_outcome f noPad v line tmp Hw) as Ho.
  rewrite Hwr in Ho. destruct Ho as (out & -> & Hl).
  unfold blen in *. rewrite length_app. lia.
Qed.

(** X2. A column whose field has a non-negative width contributes exactly
    that many bytes to the row, for every record: the writer of a padded
    column either appends [Width] bytes to the line, or panics, and it
    panics only for a field of one of the four kinds whose extractor is
    nil.  A field of unknown kind never panics. *)
Theorem X2_column_fixed_width f v line tmp :
  0 <= Width f ->
  match write (makeWriter f false) line v tmp with
  | Ok (line', _) => ∃ out, line' = line ++ out ∧ blen out = Width f
  | Panic =>
      fieldValue f v = None ∧
      (Kind f = KindString ∨ Kind f = KindInt ∨ Kind f = KindFloat ∨
       Kind f = KindCustom)
  | _ => False
  end.
Proof. apply makeWriter_outcome. Qed.

(** ** What a successful compilation yields *)

Lemma CompileWithOptions_Ok_inv fuel reg spec opts ch p :
  CompileWithOptions fuel reg spec opts ch = Ok p ->
  ∃ fs ch',
    parseSpec fuel reg spec ch = Ok (fs, ch') ∧
    fs ≠ [] ∧
    (if NoHeader opts then header p = []
     else buildHeader fs (Separator opts) (NoPadding opts)
            (PadLastColumn opts) = Ok (header p)) ∧
    underline p = (if NoUnderline opts then [] else buildUnderline (header p)) ∧
    separator p = list_ascii_of_string (Separator opts) ∧
    columns p =
      imap (fun i f =>
              makeWriter f
                (noPadAt (NoPadding opts) (PadLastColumn opts) (length fs) i))
           fs.
Proof.
  unfold CompileWithOptions. intros Hc.
  destruct (String.eqb spec ""); [done|].
  destruct (parseSpec fuel reg spec ch) as [[fs ch']| | |]; simpl in Hc;
    try done.
  destruct fs as [|f0 fs]; [done|]. exists (f0 :: fs), ch'.
  change (length (f0 :: fs) =? 0)%nat with false in Hc. cbv iota in Hc.
  destruct (NoHeader opts), (NoUnderline opts); simpl in Hc.
  - by simplify_eq.
  - by simplify_eq.
  - destruct (buildHeader _ _ _ _) as [hd| | |]; by simplify_eq/=.
  - destruct (buildHeader _ _ _ _) as [hd| | |]; by simplify_eq/=.
Qed.

(** ** Header and rows of the same length *)

Lemma noPadAt_padded n i : noPadAt false true n i = false.
Proof. unfold noPadAt. simpl. by rewrite andb_false_r. Qed.

Lemma length_string_of_list_ascii (l : bytes) :
  String.length (string_of_list_ascii l) = length l.
Proof. induction l as [|c l IH]; simpl; [done|]. by rewrite IH. Qed.

Lemma length_list_ascii_of_string (s : string) :
  length (list_ascii_of_string s) = String.length s.
Proof. induction s as [|c s IH]; simpl; [done|]. by rewrite IH. Qed.

Lemma rangeFrom_row_length (cs : list (compiledCol (T := T))) (sep : bytes) v :
  (∀ c line tmp line' tmp',
     c ∈ cs -> write c line v tmp = Ok (line', tmp') ->
     blen line' = blen line + width c) ->
  ∀ i line tmp line' tmp',
    rangeFrom (S i) cs
      (fun i c '(line, tmp) =>
         let line := if (0 <? i)%nat then line ++ sep else line in
         write c line v tmp) (line, tmp) = Ok (line', tmp') ->
    blen line' =
      blen line + foldr (fun c a => width c + a) 0 cs
      + Z.of_nat (length cs) * blen sep.
Proof.
  induction cs as [|c cs IH]; intros Hfix i line tmp line' tmp' Hr.
  - simpl in Hr. simplify_eq. simpl. lia.
  - simpl in Hr.
    destruct (write c (line ++ sep) v tmp) as [[l1 t1]| | |] eqn:Hw;
      simpl in Hr; try done.
    apply Hfix in Hw; [|by left].
    apply IH in Hr; [|intros; eapply Hfix; [by right|done]].
    rewrite Hr, Hw. unfold blen. rewrite length_app. cbn [foldr length]. lia.
Qed.

Lemma FormatRow_length p v tmp line s tmp' line' :
  columns p ≠ [] ->
  (∀ c line tmp line' tmp',
     c ∈ columns p -> write c line v tmp = Ok (line', tmp') ->
     blen line' = blen line + width c) ->
  FormatRow p v tmp line = Ok (s, tmp', line') ->
  len s = programWidth p.
Proof.
  unfold FormatRow, forRange, programWidth. intros Hne Hfix Hf.
  destruct (columns p) as [|c cs]; [done|]. simpl in Hf.
  destruct (write c [] v tmp) as [[l1 t1]| | |] eqn:Hw; simpl in Hf;
    try done.
  destruct (rangeFrom 1 cs _ (l1, t1)) as [[l2 t2]| | |] eqn:Hr;
    simpl in Hf; try done.
  simplify_eq. apply Hfix in Hw; [|by left].
  apply rangeFrom_row_length in Hr; [|intros; eapply Hfix; [by right|done]].
  unfold len. rewrite length_string_of_list_ascii.
  fold (blen line'). rewrite Hr, Hw. unfold blen. cbn [foldr length]. lia.
Qed.

Lemma rangeFrom_header_length n (sep : string) fs :
  ∀ i buf hd,
    rangeFrom (S i) fs
      (fun i f buf =>
         let buf := if (0 <? i)%nat then buf ++ list_ascii_of_string sep
                    else buf in
         if noPadAt false true n i then
           display ← (if len (Display f) >? Width f then
                        if Width f <? 0 then Panic
                        else Ok (substring 0 (Z.to_nat (Width f)) (Display f))
                      else Ok (Display f));
           Ok (buf ++ list_ascii_of_string display)
         else padLeft buf (Display f) (Width f)) buf = Ok hd ->
    Forall (fun f => 0 <= Width f) fs ∧
    blen hd =
      blen buf + foldr (fun f a => Width f + a) 0 fs
      + Z.of_nat (length fs) * len sep.
Proof.
  induction fs as [|f fs IH]; intros i buf hd Hr.
  - simpl in Hr. simplify_eq. split; [constructor|]. simpl. lia.
  - cbn [rangeFrom] in Hr. rewrite noPadAt_padded in Hr.
    unfold padLeft in Hr.
    destruct (Z.lt_ge_cases (Width f) 0) as [Hneg|Hpos].
    { by rewrite padBytesLeft_negative in Hr. }
    rewrite padBytesLeft_closed in Hr by done. simpl in Hr.
    apply IH in Hr as [Hall Hlen]. split; [by constructor|].
    rewrite Hlen. unfold blen, len. rewrite !length_app.
    pose proof (padded_length (list_ascii_of_string (Display f)) (Width f)
                  " "%char Hpos) as Hp. unfold blen in Hp.
    rewrite length_list_ascii_of_string. cbn [foldr length]. lia.
Qed.

Lemma buildHeader_padded_length fs (sep : string) hd :
  fs ≠ [] ->
  buildHeader fs sep false true = Ok hd ->
  Forall (fun f => 0 <= Width f) fs ∧
  blen hd =
    foldr (fun f a => Width f + a) 0 fs
    + (Z.of_nat (length fs) - 1) * len sep.
Proof.
  unfold buildHeader, forRange. intros Hne Hb.
  destruct fs as [|f fs]; [done|]. cbn [rangeFrom] in Hb.
  rewrite noPadAt_padded in Hb. unfold padLeft in Hb.
  destruct (Z.lt_ge_cases (Width f) 0) as [Hneg|Hpos].
  { by rewrite padBytesLeft_negative in Hb. }
  rewrite padBytesLeft_closed in Hb by done. simpl in Hb.
  apply rangeFrom_header_length in Hb as [Hall Hlen].
  split; [by constructor|]. rewrite Hlen.
  pose proof (padded_length (list_ascii_of_string (Display f)) (Width f)
                " "%char Hpos) as Hp.
  unfold blen in *. cbn [foldr length]. lia.
Qed.

Lemma foldr_width_imap (g : nat -> Field -> compiledCol (T := T)) fs :
  (∀ i f, width (g i f) = Width f) ->
  foldr (fun c a => width c + a) 0 (imap g fs) =
  foldr (fun f a => Width f + a) 0 fs.
Proof.
  revert g; induction fs as [|f fs IH]; intros g Hg; [done|].
  simpl. rewrite Hg. f_equal. apply IH. intros i f'. apply Hg.
Qed.

(** X3. With [PadLastColumn] set and [NoPadding] unset, the header of a
    compiled program and every row it renders have the same byte length:
    the sum of the column widths plus one separator between adjacent
    columns. *)
Theorem X3_rows_align_with_header fuel reg spec opts ch p :
  CompileWithOptions fuel reg spec opts ch = Ok p ->
  NoPadding opts = false ->
  PadLastColumn opts = true ->
  NoHeader opts = false ->
  blen (header p) = programWidth p ∧
  ∀ v tmp line s tmp' line',
    FormatRow p v tmp line = Ok (s, tmp', line') ->
    len s = blen (header p).
Proof.
  intros Hc Hnp Hpl Hnh.
  destruct (CompileWithOptions_Ok_inv _ _ _ _ _ _ Hc)
    as (fs & ch' & _ & Hne & Hhd & _ & Hsep & Hcols).
  rewrite Hnh, Hnp, Hpl in Hhd.
  apply buildHeader_padded_length in Hhd as [Hall Hlen]; [|done].
  assert (Hw : blen (header p) = programWidth p).
  { unfold programWidth. rewrite Hcols, length_imap, Hsep, Hlen.
    rewrite foldr_width_imap by (intros; apply makeWriter_width).
    unfold blen, len. by rewrite length_list_ascii_of_string. }
  split; [done|]. intros v tmp line s tmp' line' Hf. rewrite Hw.
  eapply FormatRow_length; [| |done].
  - rewrite Hcols. by destruct fs.
  - intros c l t l' t' Hin Hwr. rewrite Hcols in Hin.
    apply elem_of_lookup_imap in Hin as (i & f & -> & Hi).
    rewrite makeWriter_width. eapply makeWriter_fixed; [|done].
    eapply Forall_forall in Hall; [done|].
    by eapply list_elem_of_lookup_2.
Qed.

(** ** The underline *)

Lemma buildUnderline_lookup (hd : bytes) (i : nat) (c : ascii) :
  hd !! i = Some c ->
  buildUnderline hd !! i =
    Some (if Ascii.eqb c " "%char then " "%char else "-"%char).
Proof. intros Hi. unfold buildUnderline. by rewrite list_lookup_fmap, Hi. Qed.

(** X4. The underline of a compiled program has the length of its header,
    a space wherever the header has a space and a dash everywhere else;
    with [NoUnderline] it is empty, and with [NoHeader] both the header and
    the underline are empty, whether or not [NoUnderline] is set. *)
Theorem X4_underline_matches_header fuel reg spec opts ch p :
  CompileWithOptions fuel reg spec opts ch = Ok p ->
  (NoUnderline opts = false ->
     length (underline p) = length (header p) ∧
     ∀ i c, header p !! i = Some c ->
            underline p !! i =
              Some (if Ascii.eqb c " "%char then " "%char else "-"%char)) ∧
  (NoUnderline opts = true -> underline p = []) ∧
  (NoHeader opts = true -> header p = [] ∧ underline p = []).
Proof.
  intros Hc.
  destruct (CompileWithOptions_Ok_inv _ _ _ _ _ _ Hc)
    as (fs & ch' & _ & _ & Hhd & Hul & _ & _).
  split; [|split].
  - intros Hn. rewrite Hn in Hul. rewrite Hul. split.
    + unfold buildUnderline. apply length_fmap.
    + intros i c. apply buildUnderline_lookup.
  - intros Hn. by rewrite Hn in Hul.
  - intros Hn. rewrite Hn in Hhd. rewrite Hul, Hhd.
    split; [done|]. by destruct (NoUnderline opts).
Qed.

(** ** The registry: consistency of its maps and field lookup *)

Lemma wfRegistry_New : wfRegistry (NewRegistry (T := T)).
Proof. split; intros ? ?; simpl; by rewrite lookup_empty. Qed.

Lemma wfRegistry_Register (b : FieldBuilder (T := T)) r :
  wfRegistry r -> wfRegistry (FieldBuilder_Register b r).
Proof.
  intros [Hf Hi]. split; simpl.
  - intros c f Hc. apply lookup_insert_Some in Hc as [[<- <-]|[Hne Hc]].
    + split; [done|]. rewrite lookup_insert_eq. by eexists.
    + destruct (Hf c f Hc) as [Hn Hix]. split; [done|].
      destruct (decide (ToLower (Name (field b)) = ToLower c)) as [->|Hl].
      * rewrite lookup_insert_eq. by eexists.
      * by rewrite lookup_insert_ne.
  - intros l c Hc. apply lookup_insert_Some in Hc as [[<- <-]|[Hne Hc]].
    + split; [done|]. rewrite lookup_insert_eq. by eexists.
    + destruct (Hi l c Hc) as [Hl Hfc]. split; [done|].
      destruct (decide (Name (field b) = c)) as [->|Hn].
      * rewrite lookup_insert_eq. by eexists.
      * by rewrite lookup_insert_ne.
Qed.

Lemma wfRegistry_mutate (m : mutation (T := T)) r :
  wfRegistry r -> wfRegistry (mutate m r).
Proof.
  destruct m as [b|name spec ms|name spec]; simpl; [|done|done].
  apply wfRegistry_Register.
Qed.

(** X5. The registry keeps its three views of the registered fields
    consistent: in the empty registry, and after every [Register],
    [DefineCollection] and [SetDefaults], each field is stored under its own
    name, each stored name has an entry in the lower-case index, and each
    index entry is the lower-case form of a stored name. *)
Theorem X5_registry_invariant :
  wfRegistry (NewRegistry (T := T)) ∧
  ∀ (ms : list (mutation (T := T))) r,
    wfRegistry r -> wfRegistry (foldl (fun r m => mutate m r) r ms).
Proof.
  split; [apply wfRegistry_New|].
  induction ms as [|m ms IH]; intros r Hr; [done|].
  simpl. by apply IH, wfRegistry_mutate.
Qed.

Lemma get_sound r q f :
  wfRegistry r -> get r q = Some f ->
  fields r !! Name f = Some f ∧ ToLower (Name f) = ToLower q.
Proof.
  intros [Hf Hi]. unfold get.
  destruct (fields r !! q) as [f'|] eqn:Hq.
  - intros [= <-]. destruct (Hf q f' Hq) as [-> _]. done.
  - destruct (index r !! ToLower q) as [c|] eqn:Hc; [|done].
    destruct (Hi _ c Hc) as [Hl [f' Hfc]]. rewrite Hfc. simpl.
    intros [= <-]. destruct (Hf c f' Hfc) as [-> _]. done.
Qed.

Lemma get_None r q :
  wfRegistry r ->
  get r q = None ↔ ∀ c, is_Some (fields r !! c) -> ToLower c ≠ ToLower q.
Proof.
  intros Hwf. split.
  - intros Hg c [f Hc] Hl. destruct Hwf as [Hf Hi].
    destruct (Hf c f Hc) as [_ [c' Hix]]. rewrite Hl in Hix.
    unfold get in Hg. destruct (fields r !! q); [done|].
    by rewrite Hix in Hg.
  - intros Hno. destruct (get r q) as [f|] eqn:Hg; [|done].
    destruct (get_sound r q f Hwf Hg) as [Hfn Hl].
    destruct (Hno (Name f)); [by eexists|done].
Qed.

(** X6. In a consistent registry, [get] finds exactly the registered
    fields, by name up to case: a field it returns is stored under its own
    name, which has the same lower-case form as the name asked for, and it
    reports "not found" exactly when no stored name has that lower-case
    form. *)
Theorem X6_get_sound_and_complete r q :
  wfRegistry r ->
  (∀ f, get r q = Some f ->
        fields r !! Name f = Some f ∧ ToLower (Name f) = ToLower q) ∧
  (get r q = None ↔
   ∀ c, is_Some (fields r !! c) -> ToLower c ≠ ToLower q).
Proof.
  intros Hwf. split; [intros f; by apply get_sound|by apply get_None].
Qed.

(** X7. Registration followed by lookup: after [Register], [get] returns
    the builder's field for its exact name (the last registration wins),
    and for every name with the same lower-case form that is not itself a
    stored name. *)
Theorem X7_Register_then_get (b : FieldBuilder (T := T)) r :
  get (FieldBuilder_Register b r) (Name (field b)) = Some (field b) ∧
  ∀ q, fields r !! q = None ->
       ToLower q = ToLower (Name (field b)) ->
       get (FieldBuilder_Register b r) q = Some (field b).
Proof.
  split.
  - unfold get. simpl. by rewrite lookup_insert_eq.
  - intros q Hq Hl. unfold get. simpl.
    destruct (decide (Name (field b) = q)) as [->|Hne].
    + by rewrite lookup_insert_eq.
    + rewrite lookup_insert_ne, Hq by done.
      by rewrite Hl, !lookup_insert_eq.
Qed.

(** X8. Frame of the catalog mutations: in a consistent registry, a lookup
    is changed by no [DefineCollection] or [SetDefaults], and by a
    [Register] only when the registered name has the lower-case form of the
    name asked for. *)
Theorem X8_mutation_frame (m : mutation (T := T)) r q :
  wfRegistry r ->
  (∀ b, m = MRegister b -> ToLower (Name (field b)) ≠ ToLower q) ->
  get (mutate m r) q = get r q.
Proof.
  intros [Hf Hi] Hm. destruct m as [b|name spec ms|name spec]; [|done|done].
  specialize (Hm b eq_refl). unfold get. simpl.
  assert (Name (field b) ≠ q) by congruence.
  rewrite !lookup_insert_ne by done.
  destruct (fields r !! q); [done|].
  destruct (index r !! ToLower q) as [c|] eqn:Hc; [|done].
  destruct (Hi _ c Hc) as [Hl _].
  rewrite lookup_insert_ne; [done|]. congruence.
Qed.

(** ** Listings *)

Lemma stringLe_trans : Transitive stringLe.
Proof.
  unfold stringLe, String.leb. intros a.
  induction a as [|x a IH]; intros b c Hab Hbc.
  - by destruct c.
  - destruct b as [|y b]; [done|]. destruct c as [|z c]; [done|].
    simpl in *. unfold Ascii.compare in *.
    destruct (N.compare_spec (N_of_ascii x) (N_of_ascii y)) as [Exy|Lxy|Gxy];
      [| |done];
      (destruct (N.compare_spec (N_of_ascii y) (N_of_ascii z)) as [Eyz|Lyz|Gyz];
        [| |done]);
      destruct (N.compare_spec (N_of_ascii x) (N_of_ascii z)) as [Exz|Lxz|Gxz];
      try done; try lia.
    by apply (IH b c).
Qed.

Lemma stringLe_total : Total stringLe.
Proof. intros a b. apply String.leb_total. Qed.

Lemma sortStrings_keys {V : Type} (m : gmap string V) :
  StronglySorted stringLe (sortStrings (map_to_list m).*1) ∧
  NoDup (sortStrings (map_to_list m).*1) ∧
  ∀ x, x ∈ sortStrings (map_to_list m).*1 ↔ is_Some (m !! x).
Proof.
  unfold sortStrings. split; [|split].
  - apply StronglySorted_merge_sort;
      [apply stringLe_trans|apply stringLe_total].
  - rewrite merge_sort_Permutation. apply NoDup_fst_map_to_list.
  - intros x. rewrite merge_sort_Permutation, list_elem_of_fmap. split.
    + intros ([k a] & -> & Hin). apply elem_of_map_to_list in Hin.
      by eexists.
    + intros [a Ha]. exists (x, a). split; [done|].
      by apply elem_of_map_to_list.
Qed.

(** X9. [ListFields] returns each registered field name exactly once, in
    ascending byte-wise order, and nothing else; [ListCollections] does the
    same for the names of the defined collections (a name that only has a
    default spec set by [SetDefaults] is not listed). *)
Theorem X9_listings_sorted_and_exact r :
  (StronglySorted stringLe (ListFields r) ∧ NoDup (ListFields r) ∧
   ∀ x, x ∈ ListFields r ↔ is_Some (fields r !! x)) ∧
  (StronglySorted stringLe (ListCollections r) ∧ NoDup (ListCollections r) ∧
   ∀ x, x ∈ ListCollections r ↔ is_Some (collections r !! x)).
Proof. split; apply sortStrings_keys. Qed.

(** ** The token loop: accumulation and reached tokens *)

Lemma parseTokens_acc rec reg tokens fs ch :
  parseTokens rec reg tokens fs ch =
    r ← parseTokens rec reg tokens [] ch; Ok (fs ++ r.1, r.2).
Proof.
  revert fs ch; induction tokens as [|raw tokens IH]; intros fs ch.
  { simpl. by rewrite app_nil_r. }
  assert (Hcont : ∀ ex c,
    parseTokens rec reg tokens (fs ++ ex) c =
      r ← parseTokens rec reg tokens ([] ++ ex) c; Ok (fs ++ r.1, r.2)).
  { intros ex c. rewrite (IH (fs ++ ex)), (IH ([] ++ ex)).
    destruct (parseTokens rec reg tokens [] c) as [[o c']| | |]; simpl;
      [|done..]. by rewrite app_assoc. }
  simpl.
  destruct (String.eqb _ ""); [apply IH|].
  destruct (GoStrings.HasPrefixAt _).
  - destruct (String.eqb _ "default").
    + destruct (rangeFirst _ _) as [[d|] ch1]; [|apply IH].
      destruct (rec d ch1) as [[ex ch2]| | |]; first [done | apply Hcont].
    + destruct (defaults reg !! _) as [d|]; [|done].
      destruct (rec d ch) as [[ex ch2]| | |]; first [done | apply Hcont].
  - destruct (parseFieldSpec _) as [[[n w] hw]| | |]; try done. simpl.
    destruct (get reg n); [|done].
    destruct hw; [destruct (w <=? 0); [done|]|]; apply Hcont.
Qed.

Lemma parseSpec_at_token reg fuel spec ch pre raw post fs ch' :
  GoStrings.Split spec = pre ++ raw :: post ->
  parseTokens (parseSpec fuel reg) reg pre [] ch = Ok (fs, ch') ->
  parseSpec (S fuel) reg spec ch =
    parseTokens (parseSpec fuel reg) reg (raw :: post) fs ch'.
Proof.
  intros Hsplit Hpre. simpl. by rewrite Hsplit, parseTokens_app, Hpre.
Qed.

Lemma Split_nonblank spec pre raw post :
  GoStrings.Split spec = pre ++ raw :: post ->
  String.eqb (GoStrings.TrimSpace raw) "" = false ->
  String.eqb spec "" = false.
Proof.
  intros Hsplit Hraw. destruct spec; [|done]. simpl in Hsplit.
  destruct pre as [|? [|? ?]]; simplify_eq/=.
Qed.

Lemma HasPrefixAt_nonempty tok :
  GoStrings.HasPrefixAt tok = true -> String.eqb tok "" = false.
Proof. by destruct tok. Qed.

(** ** Resolved fields come from the catalog *)

Lemma parseTokens_resolved rec reg tokens fs ch out ch' :
  (∀ s c res, rec s c = Ok res -> Forall (resolvedFrom reg) res.1) ->
  Forall (resolvedFrom reg) fs ->
  parseTokens rec reg tokens fs ch = Ok (out, ch') ->
  Forall (resolvedFrom reg) out.
Proof.
  intros Hrec. revert fs ch; induction tokens as [|raw tokens IH];
    intros fs ch Hfs Hp.
  { simpl in Hp. by simplify_eq. }
  simpl in Hp.
  destruct (String.eqb _ ""); [by eapply IH|].
  destruct (GoStrings.HasPrefixAt _).
  - destruct (String.eqb _ "default").
    + destruct (rangeFirst _ _) as [[d|] ch1]; [|by eapply IH].
      destruct (rec d ch1) as [[ex ch2]| | |] eqn:Hr; try done.
      eapply IH; [|done]. apply Forall_app. split; [done|].
      apply (Hrec _ _ _ Hr).
    + destruct (defaults reg !! _) as [d|]; [|done].
      destruct (rec d ch) as [[ex ch2]| | |] eqn:Hr; try done.
      eapply IH; [|done]. apply Forall_app. split; [done|].
      apply (Hrec _ _ _ Hr).
  - destruct (parseFieldSpec _) as [[[n w] hw]| | |]; try done.
    simpl in Hp. destruct (get reg n) as [f0|] eqn:Hg; [|done].
    destruct hw.
    + destruct (Z.leb_spec w 0); [done|].
      eapply IH; [|done]. apply Forall_app. split; [done|].
      apply Forall_singleton. exists n, f0. split; [done|]. right. eauto.
    + eapply IH; [|done]. apply Forall_app. split; [done|].
      apply Forall_singleton. exists n, f0. split; [done|]. by left.
Qed.

Lemma parseSpec_resolved reg fuel spec ch fs ch' :
  parseSpec fuel reg spec ch = Ok (fs, ch') -> Forall (resolvedFrom reg) fs.
Proof.
  revert spec ch fs ch'; induction fuel as [|fuel IH];
    intros spec ch fs ch' Hp; [done|].
  simpl in Hp. eapply parseTokens_resolved; [|constructor|done].
  intros s c [o c'] Hr. by eapply IH.
Qed.

(** X10. Every field [parseSpec] resolves, through any nesting of
    [@collection] and [@default] expansions, is a field that [get] finds in
    the catalog, carrying either its registered width or a positive width
    override; every column of a compiled program is the writer of such a
    field, with that width. *)
Theorem X10_columns_come_from_catalog reg fuel spec opts ch :
  (∀ fs ch', parseSpec fuel reg spec ch = Ok (fs, ch') ->
             Forall (resolvedFrom reg) fs) ∧
  (∀ p i c, CompileWithOptions fuel reg spec opts ch = Ok p ->
            columns p !! i = Some c ->
            ∃ f noPad, resolvedFrom reg f ∧ c = makeWriter f noPad ∧
                       width c = Width f).
Proof.
  split; [intros fs ch'; apply parseSpec_resolved|].
  intros p i c Hc Hi.
  destruct (compiled_column _ _ _ _ _ _ _ _ Hc Hi)
    as (fs & ch' & f & Hp & Hf & -> & Hw).
  exists f. eexists. split; [|by split].
  eapply Forall_forall; [by eapply parseSpec_resolved|].
  by eapply list_elem_of_lookup_2.
Qed.

(** ** Specs without fields, unknown names *)

Lemma parseTokens_blank rec reg tokens fs ch :
  Forall (fun tok => GoStrings.TrimSpace tok = "") tokens ->
  parseTokens rec reg tokens fs ch = Ok (fs, ch).
Proof.
  induction 1 as [|raw tokens Hraw _ IH]; [done|].
  simpl. by rewrite Hraw.
Qed.

(** X11. A non-empty spec all of whose comma-separated tokens are blank
    resolves no field and fails with "no fields specified"; a program that
    compiles has at least one column. *)
Theorem X11_blank_spec_has_no_fields reg spec opts ch :
  (spec ≠ "" ->
   Forall (fun tok => GoStrings.TrimSpace tok = "") (GoStrings.Split spec) ->
   ∀ fuel, CompileWithOptions (S fuel) reg spec opts ch = Err NoFields) ∧
  (∀ fuel p, CompileWithOptions fuel reg spec opts ch = Ok p ->
             columns p ≠ []).
Proof.
  split.
  - intros Hne Hblank fuel. unfold CompileWithOptions.
    destruct (String.eqb_spec spec ""); [done|].
    simpl. by rewrite parseTokens_blank.
  - intros fuel p Hc.
    destruct (CompileWithOptions_Ok_inv _ _ _ _ _ _ Hc)
      as (fs & ch' & _ & Hne & _ & _ & _ & ->).
    by destruct fs.
Qed.

(** X12. The first token the loop cannot resolve decides the error: a
    reference [@name] other than [@default] with no default spec
    registered under [name] fails with "unknown collection", and a field
    token without a colon that [get] does not find fails with "unknown
    field". *)
Theorem X12_unknown_names reg fuel spec opts ch pre raw post fs ch' tok :
  GoStrings.Split spec = pre ++ raw :: post ->
  parseTokens (parseSpec fuel reg) reg pre [] ch = Ok (fs, ch') ->
  tok = GoStrings.TrimSpace raw ->
  (GoStrings.HasPrefixAt tok = true ->
   GoStrings.tail1 tok ≠ "default" ->
   defaults reg !! GoStrings.tail1 tok = None ->
   CompileWithOptions (S fuel) reg spec opts ch =
     Err (UnknownCollection (GoStrings.tail1 tok))) ∧
  (tok ≠ "" ->
   GoStrings.HasPrefixAt tok = false ->
   GoStrings.IndexByte tok ":"%char = None ->
   get reg (GoStrings.TrimSpace tok) = None ->
   CompileWithOptions (S fuel) reg spec opts ch =
     Err (UnknownField (GoStrings.TrimSpace tok))).
Proof.
  intros Hsplit Hpre ->. split.
  - intros Hat Hnd Hk. unfold CompileWithOptions.
    rewrite (Split_nonblank _ _ _ _ Hsplit (HasPrefixAt_nonempty _ Hat)).
    rewrite (parseSpec_at_token _ _ _ _ _ _ _ _ _ Hsplit Hpre). simpl.
    rewrite (HasPrefixAt_nonempty _ Hat), Hat.
    destruct (String.eqb_spec (GoStrings.tail1 (GoStrings.TrimSpace raw))
                "default"); [done|].
    by rewrite Hk.
  - intros Hne Hat Hidx Hg. unfold CompileWithOptions.
    assert (Hb : String.eqb (GoStrings.TrimSpace raw) "" = false)
      by (by destruct (String.eqb_spec (GoStrings.TrimSpace raw) "")).
    rewrite (Split_nonblank _ _ _ _ Hsplit Hb).
    rewrite (parseSpec_at_token _ _ _ _ _ _ _ _ _ Hsplit Hpre). simpl.
    rewrite Hb, Hat. unfold parseFieldSpec. rewrite Hidx. simpl.
    by rewrite Hg.
Qed.

(** ** References and concatenation *)

(** X13. A reference [@k] to a registered default spec parses as that
    default spec does, one level deeper, with a parse error wrapped as
    "expanding @k"; so when the default spec compiles to a program, [@k]
    compiles to the same program. *)
Theorem X13_reference_is_its_default_spec reg k s :
  defaults reg !! k = Some s ->
  k ≠ "default" ->
  GoStrings.Split (String "@"%char k) = [String "@"%char k] ->
  GoStrings.TrimSpace (String "@"%char k) = String "@"%char k ->
  (∀ fuel ch,
     parseSpec (S fuel) reg (String "@"%char k) ch =
       match parseSpec fuel reg s ch with
       | Ok res => Ok res
       | Err e => Err (Expanding k e)
       | Panic => Panic
       | OutOfFuel => OutOfFuel
       end) ∧
  (∀ fuel opts ch p,
     CompileWithOptions fuel reg s opts ch = Ok p ->
     CompileWithOptions (S fuel) reg (String "@"%char k) opts ch = Ok p).
Proof.
  intros Hk Hnd Hsplit Htrim.
  assert (Hparse : ∀ fuel ch,
     parseSpec (S fuel) reg (String "@"%char k) ch =
       match parseSpec fuel reg s ch with
       | Ok res => Ok res
       | Err e => Err (Expanding k e)
       | Panic => Panic
       | OutOfFuel => OutOfFuel
       end).
  { intros fuel ch. cbn [parseSpec]. rewrite Hsplit. cbn [parseTokens].
    rewrite Htrim. simpl.
    destruct (String.eqb_spec k "default"); [done|]. rewrite Hk.
    by destruct (parseSpec fuel reg s ch) as [[ex ch2]| | |]. }
  split; [exact Hparse|].
  intros fuel opts ch p. unfold CompileWithOptions.
  destruct (String.eqb s ""); [done|].
  change (String.eqb (String "@"%char k) "") with false. cbv iota.
  rewrite Hparse.
  by destruct (parseSpec fuel reg s ch) as [[ex ch2]| | |].
Qed.

Lemma Split_nonempty s : GoStrings.Split s ≠ [].
Proof.
  destruct s as [|c s]; [done|]. simpl.
  destruct (Ascii.eqb c ","%char); [done|]. by destruct (GoStrings.Split s).
Qed.

Lemma Split_comma s1 s2 :
  GoStrings.Split (String.append s1 (String ","%char s2)) =
  GoStrings.Split s1 ++ GoStrings.Split s2.
Proof.
  induction s1 as [|c s1 IH]; [done|].
  simpl. rewrite IH. destruct (Ascii.eqb c ","%char); [done|].
  pose proof (Split_nonempty s1). by destruct (GoStrings.Split s1).
Qed.

(** X14. Specs compose by concatenation: the fields resolved for
    [s1 , s2] are the fields resolved for [s1] followed by those resolved
    for [s2] (the second parse continuing the iteration choices of the
    first), and the first failure of either is the failure of the whole. *)
Theorem X14_spec_concatenation reg fuel s1 s2 ch :
  parseSpec (S fuel) reg (String.append s1 (String ","%char s2)) ch =
    r1 ← parseSpec (S fuel) reg s1 ch;
    r2 ← parseSpec (S fuel) reg s2 (r1 : list Field * choices).2;
    Ok (r1.1 ++ (r2 : list Field * choices).1, r2.2).
Proof.
  cbn [parseSpec]. rewrite Split_comma, parseTokens_app.
  destruct (parseTokens (parseSpec fuel reg) reg (GoStrings.Split s1) [] ch)
    as [[f1 c1]| | |]; [|done..].
  simpl. by rewrite parseTokens_acc.
Qed.

(** X15. Override precedence: when the token loop reaches a token
    [name:w] whose width parses to a positive [w] and whose name [get]
    finds, the column compiled for that token has width [w] and is the
    writer of the catalog field with its width replaced by [w], whatever
    width was registered. *)
Theorem X15_width_override reg fuel spec opts ch pre raw post fs ch' tok idx
    w f p :
  GoStrings.Split spec = pre ++ raw :: post ->
  parseTokens (parseSpec fuel reg) reg pre [] ch = Ok (fs, ch') ->
  tok = GoStrings.TrimSpace raw ->
  GoStrings.HasPrefixAt tok = false ->
  GoStrings.IndexByte tok ":"%char = Some idx ->
  GoStrconv.Atoi
    (GoStrings.TrimSpace
       (substring (idx + 1) (String.length tok - (idx + 1)) tok)) = Some w ->
  0 < w ->
  get reg (GoStrings.TrimSpace (substring 0 idx tok)) = Some f ->
  CompileWithOptions (S fuel) reg spec opts ch = Ok p ->
  ∃ c noPad,
    columns p !! length fs = Some c ∧
    c = makeWriter (setWidth f w) noPad ∧
    width c = w.
Proof.
  intros Hsplit Hpre -> Hat Hidx Hw Hpos Hg Hc.
  destruct (CompileWithOptions_Ok_inv _ _ _ _ _ _ Hc)
    as (fs' & ch2 & Hp & _ & _ & _ & _ & Hcols).
  rewrite (parseSpec_at_token _ _ _ _ _ _ _ _ _ Hsplit Hpre) in Hp.
  cbn [parseTokens] in Hp.
  rewrite (IndexByte_nonempty _ _ _ Hidx), Hat in Hp.
  rewrite (parseFieldSpec_colon _ _ Hidx), Hw in Hp. simpl in Hp.
  rewrite Hg in Hp. destruct (Z.leb_spec w 0); [lia|].
  rewrite parseTokens_acc in Hp.
  destruct (parseTokens (parseSpec fuel reg) reg post [] ch')
    as [[rest c3]| | |]; simplify_eq/=.
  eexists _, _. split.
  - rewrite Hcols, list_lookup_imap.
    rewrite <- app_assoc, lookup_app_r, Nat.sub_diag by done.
    simpl. reflexivity.
  - split; [reflexivity|apply makeWriter_width].
Qed.

(** ** Scratch buffers *)

Lemma makeWriter_tmp_irrelevant f noPad v line tmp1 tmp2 :
  (res ← write (makeWriter f noPad) line v tmp1; Ok (res : bytes * bytes).1) =
  (res ← write (makeWriter f noPad) line v tmp2; Ok (res : bytes * bytes).1).
Proof.
  unfold makeWriter, padLeft. repeat case_match; simpl; try done.
  by destruct (padBytesLeft _ _ _).
Qed.

Lemma rangeFrom_tmp_irrelevant (cs : list (compiledCol (T := T)))
    (sep : bytes) v :
  (∀ c line tmp1 tmp2, c ∈ cs ->
     (res ← write c line v tmp1; Ok (res : bytes * bytes).1) =
     (res ← write c line v tmp2; Ok (res : bytes * bytes).1)) ->
  ∀ i line tmp1 tmp2,
    (res ← rangeFrom i cs
       (fun i c '(line, tmp) =>
          let line := if (0 <? i)%nat then line ++ sep else line in
          write c line v tmp) (line, tmp1); Ok (res : bytes * bytes).1) =
    (res ← rangeFrom i cs
       (fun i c '(line, tmp) =>
          let line := if (0 <? i)%nat then line ++ sep else line in
          write c line v tmp) (line, tmp2); Ok (res : bytes * bytes).1).
Proof.
  induction cs as [|c cs IH]; intros Hc i line tmp1 tmp2; [done|].
  cbn [rangeFrom].
  pose proof (Hc c (if (0 <? i)%nat then line ++ sep else line) tmp1 tmp2
                (list_elem_of_here _ _)) as Hw.
  cbv zeta.
  destruct (write c _ v tmp1) as [[l1 t1]| | |],
           (write c _ v tmp2) as [[l2 t2]| | |]; simplify_eq/=; try done.
  apply IH. intros c' l t t' Hin. apply Hc. by right.
Qed.

(** X16. Scratch buffers may be reused as they are: the row a compiled
    program formats for a record (or the panic it ends in) does not depend
    on what the caller's [tmp] and [line] buffers hold on entry. *)
Theorem X16_row_independent_of_buffers fuel reg spec opts ch p :
  CompileWithOptions fuel reg spec opts ch = Ok p ->
  ∀ v tmp1 line1 tmp2 line2,
    (res ← FormatRow p v tmp1 line1; Ok (res : string * bytes * bytes).1.1) =
    (res ← FormatRow p v tmp2 line2; Ok (res : string * bytes * bytes).1.1).
Proof.
  intros Hc v tmp1 line1 tmp2 line2.
  destruct (CompileWithOptions_Ok_inv _ _ _ _ _ _ Hc)
    as (fs & ch' & _ & _ & _ & _ & _ & Hcols).
  unfold FormatRow, forRange.
  pose proof (rangeFrom_tmp_irrelevant (columns p) (separator p) v) as Hr.
  specialize (Hr ltac:(intros c l t1 t2 Hin; rewrite Hcols in Hin;
    apply elem_of_lookup_imap in Hin as (i & f & -> & _);
    apply makeWriter_tmp_irrelevant) 0%nat [] tmp1 tmp2).
  destruct (rangeFrom 0 (columns p) _ ([], tmp1)) as [[l1 t1]| | |],
           (rangeFrom 0 (columns p) _ ([], tmp2)) as [[l2 t2]| | |];
    simplify_eq/=; done.
Qed.

(** ** Where compilation can panic *)

Lemma parseFieldSpec_no_panic tok : parseFieldSpec tok ≠ Panic.
Proof. unfold parseFieldSpec. by repeat case_match. Qed.

Lemma parseTokens_no_panic rec reg tokens fs ch :
  (∀ s c, rec s c ≠ Panic) ->
  parseTokens rec reg tokens fs ch ≠ Panic.
Proof.
  intros Hrec. revert fs ch; induction tokens as [|raw tokens IH];
    intros fs ch; [done|].
  simpl.
  destruct (String.eqb _ ""); [apply IH|].
  destruct (GoStrings.HasPrefixAt _).
  - destruct (String.eqb _ "default").
    + destruct (rangeFirst _ _) as [[d|] ch1]; [|apply IH].
      specialize (Hrec d ch1).
      destruct (rec d ch1) as [[ex ch2]| | |]; first [done | apply IH].
    + destruct (defaults reg !! _) as [d|]; [|done].
      specialize (Hrec d ch).
      destruct (rec d ch) as [[ex ch2]| | |]; first [done | apply IH].
  - pose proof (parseFieldSpec_no_panic (GoStrings.TrimSpace raw)) as Hp.
    destruct (parseFieldSpec _) as [[[n w] hw]| | |]; try done. simpl.
    destruct (get reg n); [|done].
    destruct hw; [destruct (w <=? 0); [done|]|]; apply IH.
Qed.

Lemma parseSpec_no_panic reg fuel spec ch : parseSpec fuel reg spec ch ≠ Panic.
Proof.
  revert spec ch; induction fuel as [|fuel IH]; intros spec ch; [done|].
  simpl. by apply parseTokens_no_panic.
Qed.

Lemma rangeFrom_header_outcome n (sep : string) noPadding padLast fs :
  ∀ i buf,
    match
      rangeFrom i fs
        (fun i f buf =>
           let buf := if (0 <? i)%nat then buf ++ list_ascii_of_string sep
                      else buf in
           if noPadAt noPadding padLast n i then
             display ← (if len (Display f) >? Width f then
                          if Width f <? 0 then Panic
                          else Ok (substring 0 (Z.to_nat (Width f)) (Display f))
                        else Ok (Display f));
             Ok (buf ++ list_ascii_of_string display)
           else padLeft buf (Display f) (Width f)) buf
    with
    | Ok _ => Forall (fun f => 0 <= Width f) fs
    | Panic => Exists (fun f => Width f < 0) fs
    | _ => False
    end.
Proof.
  induction fs as [|f fs IH]; intros i buf; [by constructor|].
  cbn [rangeFrom]. cbv zeta.
  destruct (Z.lt_ge_cases (Width f) 0) as [Hneg|Hpos].
  - assert (Hl : (len (Display f) >? Width f) = true).
    { apply Z.gtb_lt. unfold len. lia. }
    destruct (noPadAt noPadding padLast n i).
    + rewrite Hl. destruct (Z.ltb_spec (Width f) 0); [|lia].
      simpl. by left.
    + unfold padLeft. rewrite padBytesLeft_negative by done. simpl. by left.
  - set (buf1 := if (0 <? i)%nat then buf ++ list_ascii_of_string sep else buf).
    assert (Hstep : ∃ buf',
      (if noPadAt noPadding padLast n i then
         display ← (if len (Display f) >? Width f then
                      if Width f <? 0 then Panic
                      else Ok (substring 0 (Z.to_nat (Width f)) (Display f))
                    else Ok (Display f));
         Ok (buf1 ++ list_ascii_of_string display)
       else padLeft buf1 (Display f) (Width f)) = Ok buf').
    { destruct (noPadAt noPadding padLast n i).
      - destruct (Z.ltb_spec (Width f) 0); [lia|].
        destruct (len (Display f) >? Width f); simpl; by eexists.
      - unfold padLeft. rewrite padBytesLeft_closed by done. by eexists. }
    destruct Hstep as [buf' ->]. simpl.
    specialize (IH (S i) buf').
    destruct (rangeFrom (S i) fs _ buf'); try done.
    + by constructor.
    + by right.
Qed.

Lemma buildHeader_outcome fs (sep : string) noPadding padLast :
  match buildHeader fs sep noPadding padLast with
  | Ok _ => Forall (fun f => 0 <= Width f) fs
  | Panic => Exists (fun f => Width f < 0) fs
  | _ => False
  end.
Proof. unfold buildHeader, forRange. apply rangeFrom_header_outcome. Qed.

(** X17. Compilation panics in one situation only: the header is built
    ([NoHeader] unset) and one of the resolved fields has a negative width
    (a width override is positive, so it is a registered width).  Parsing
    never panics, and with [NoHeader] set compilation never panics. *)
Theorem X17_compile_panics_iff_negative_width fuel reg spec opts ch :
  parseSpec fuel reg spec ch ≠ Panic ∧
  (CompileWithOptions fuel reg spec opts ch = Panic ↔
   NoHeader opts = false ∧
   ∃ fs ch', parseSpec fuel reg spec ch = Ok (fs, ch') ∧
             Exists (fun f => Width f < 0) fs).
Proof.
  split; [apply parseSpec_no_panic|].
  unfold CompileWithOptions.
  pose proof (parseSpec_no_panic reg fuel spec ch) as Hnp.
  destruct (String.eqb_spec spec "") as [->|Hne].
  { split; [done|]. intros (_ & fs & ch' & Hp & Hex).
    destruct fuel as [|fuel]; [done|]. simpl in Hp. simplify_eq.
    by apply Exists_nil in Hex. }
  destruct (parseSpec fuel reg spec ch) as [[fs ch']|e| |]; simpl.
  - destruct fs as [|f0 fs].
    { split; [done|]. intros (_ & fs & ch2 & Hp & Hex). simplify_eq.
      by apply Exists_nil in Hex. }
    change (length (f0 :: fs) =? 0)%nat with false. cbv iota.
    destruct (NoHeader opts); simpl.
    { split; [done|]. by intros [? _]. }
    pose proof (buildHeader_outcome (f0 :: fs) (Separator opts)
                  (NoPadding opts) (PadLastColumn opts)) as Ho.
    destruct (buildHeader (f0 :: fs) _ _ _) as [hd| | |]; simpl; try done.
    + split; [done|]. intros (_ & fs' & ch2 & Hp & Hex). simplify_eq.
      apply Exists_exists in Hex as (f & Hin & Hneg).
      eapply Forall_forall in Ho; [|done]. simpl in Ho. lia.
    + split; [|done]. intros _. split; [done|]. by eexists _, _.
  - split; [done|]. by intros (_ & ? & ? & ? & _).
  - done.
  - split; [done|]. by intros (_ & ? & ? & ? & _).
Qed.

End FurtherProperties.

(** * Iteration order *)

Section IterationOrder.

Context `{GoLib} {T : Type}.

(** X21. When at most one default spec is registered, compilation does not
    depend on the iteration order of the defaults map: every order gives
    the same program or the same failure, also for specs that use
    [@default] at any depth. *)
Theorem X21_single_default_is_deterministic (reg : Registry (T := T)) fuel
    spec opts ch1 ch2 :
  (size (defaults reg) <= 1)%nat ->
  CompileWithOptions fuel reg spec opts ch1 =
  CompileWithOptions fuel reg spec opts ch2.
Proof. apply CompileWithOptions_single_default. Qed.

End IterationOrder.

(** * The hierarchical registry *)

Section HierProperties.

Context `{GoLib} {T S : Type}.

(** X18. A field inherited through a mapper renders a record exactly as
    the source field renders the mapped record: the writers built for the
    two agree on every line, record and buffer (including the panic for a
    nil extractor), and so do the formatted values and the widths. *)
Theorem X18_inherited_field_renders_mapped_record (mapper : T -> S)
    (srcField : Field (T := S)) noPad line (t : T) tmp :
  write (makeWriter (Hier.inheritField mapper srcField) noPad) line t tmp =
    write (makeWriter srcField noPad) line (mapper t) tmp ∧
  fieldValue (Hier.inheritField mapper srcField) t =
    fieldValue srcField (mapper t) ∧
  width (makeWriter (Hier.inheritField mapper srcField) noPad) =
    width (makeWriter srcField noPad).
Proof.
  rewrite !makeWriter_width. unfold makeWriter, fieldValue. simpl.
  destruct (Kind srcField =? KindString).
  { by destruct (GetString srcField). }
  destruct (Kind srcField =? KindInt).
  { by destruct (GetInt srcField). }
  destruct (Kind srcField =? KindFloat).
  { by destruct (GetFloat srcField). }
  destruct (Kind srcField =? KindCustom).
  { by destruct (GetCustom srcField). }
  done.
Qed.

Lemma inherit_foldl (mapper : T -> S) (source : Hier.Registry S)
    (l : list string) :
  ∀ d : Hier.Registry T,
    let r' :=
      foldl (fun (d : Hier.Registry T) (n : string) =>
               let srcField := default zeroField (Hier.fields source !! n) in
               let fld := Hier.inheritField mapper srcField in
               {| Hier.name := Hier.name d;
                  Hier.fields := <[n := fld]> (Hier.fields d);
                  Hier.fieldOrder := Hier.fieldOrder d ++ [n];
                  Hier.index := <[ToLower n := n]> (Hier.index d);
                  Hier.collections := Hier.collections d;
                  Hier.defaults := Hier.defaults d;
                  Hier.subRegistries := Hier.subRegistries d |}) d l in
    Hier.fieldOrder r' = Hier.fieldOrder d ++ l ∧
    (∀ n, n ∈ l ->
       Hier.fields r' !! n =
         Some (Hier.inheritField mapper
                 (default zeroField (Hier.fields source !! n)))) ∧
    (∀ n, n ∉ l -> Hier.fields r' !! n = Hier.fields d !! n) ∧
    Hier.collections r' = Hier.collections d ∧
    Hier.defaults r' = Hier.defaults d ∧
    Hier.subRegistries r' = Hier.subRegistries d ∧
    Hier.name r' = Hier.name d.
Proof.
  induction l as [|x l IH]; intros d.
  { simpl. rewrite app_nil_r. repeat split; try done.
    intros n Hn. by apply elem_of_nil in Hn. }
  cbn [foldl]. cbv zeta in IH |- *.
  match goal with
  | |- context [foldl ?g ?d' l] => destruct (IH d') as (Ho & Hin & Hout & Hc & Hd & Hs & Hn)
  end.
  simpl in Ho, Hout, Hc, Hd, Hs, Hn.
  split; [by rewrite Ho, <- app_assoc|].
  split; [|split; [|done]].
  - intros n Hmem. destruct (decide (n ∈ l)) as [Hl|Hl]; [by apply Hin|].
    apply elem_of_cons in Hmem as [->|?]; [|done].
    by rewrite (Hout x Hl), lookup_insert_eq.
  - intros n Hmem. apply not_elem_of_cons in Hmem as [Hne Hl].
    by rewrite (Hout n Hl), lookup_insert_ne.
Qed.

(** X19. [InheritFieldsFrom] stores, under every name of the source's
    insertion order, the source field inherited through the mapper;
    leaves every other field of the destination as it was; appends the
    source's insertion order to the destination's; and copies neither the
    collections nor the default specs of the source. *)
Theorem X19_InheritFieldsFrom (dest : Hier.Registry T)
    (source : Hier.Registry S) (mapper : T -> S) :
  let r' := Hier.InheritFieldsFrom dest source mapper in
  Hier.fieldOrder r' = Hier.fieldOrder dest ++ Hier.fieldOrder source ∧
  (∀ n, n ∈ Hier.fieldOrder source ->
     Hier.fields r' !! n =
       Some (Hier.inheritField mapper
               (default zeroField (Hier.fields source !! n)))) ∧
  (∀ n, n ∉ Hier.fieldOrder source ->
     Hier.fields r' !! n = Hier.fields dest !! n) ∧
  Hier.collections r' = Hier.collections dest ∧
  Hier.defaults r' = Hier.defaults dest.
Proof.
  destruct (inherit_foldl mapper source (Hier.fieldOrder source) dest)
    as (Ho & Hin & Hout & Hc & Hd & _ & _).
  by repeat split.
Qed.

Lemma hier_register_all (bs : list (FieldBuilder (T := T)))
    (r0 : Hier.Registry T) :
  let r := foldl (fun r b => Hier.Register b r) r0 bs in
  Hier.fieldOrder r =
    Hier.fieldOrder r0 ++ ((fun b => Name (field b)) <$> bs) ∧
  ∀ n, is_Some (Hier.fields r !! n) ↔
       is_Some (Hier.fields r0 !! n) ∨ n ∈ (fun b => Name (field b)) <$> bs.
Proof.
  revert r0; induction bs as [|b bs IH]; intros r0.
  { simpl. rewrite app_nil_r. split; [done|]. intros n.
    rewrite elem_of_nil. tauto. }
  cbn [foldl]. cbv zeta in IH |- *.
  destruct (IH (Hier.Register b r0)) as [Ho Hf]. split.
  - rewrite Ho. simpl. by rewrite <- app_assoc.
  - intros n. rewrite Hf, fmap_cons, elem_of_cons. simpl.
    rewrite lookup_insert_is_Some.
    destruct (decide (Name (field b) = n)) as [Heq|Hne]; [by split; auto|].
    split.
    + intros [[?|[_ ?]]|?]; auto.
    + intros [?|[?|?]]; auto.
Qed.

(** X20. After any sequence of [Register] calls on a new registry,
    [ListFields(false)] is the sequence of the registered names, one entry
    per call (a name registered twice is listed twice although the field
    map holds it once); the listed names are exactly the names the field
    map holds; and [ListFields(true)] is the same list in ascending
    byte-wise order. *)
Theorem X20_hier_ListFields (bs : list (FieldBuilder (T := T))) :
  let r := foldl (fun r b => Hier.Register b r) Hier.NewRegistry bs in
  Hier.ListFields r false = (fun b => Name (field b)) <$> bs ∧
  (∀ n, n ∈ Hier.ListFields r false ↔ is_Some (Hier.fields r !! n)) ∧
  StronglySorted stringLe (Hier.ListFields r true) ∧
  Hier.ListFields r true ≡ₚ Hier.ListFields r false.
Proof.
  intros r. destruct (hier_register_all bs Hier.NewRegistry) as [Ho Hf].
  fold r in Ho, Hf. simpl in Ho.
  unfold Hier.ListFields. simpl. split; [done|]. split.
  - intros n. rewrite Hf, Ho. simpl. rewrite lookup_empty.
    split; [by right|]. intros [[? ?]|?]; done.
  - unfold sortStrings. split.
    + apply StronglySorted_merge_sort;
        [apply stringLe_trans|apply stringLe_total].
    + apply merge_sort_Permutation.
Qed.

End HierProperties.

(** * Closed instances of the further properties *)

Lemma wfRegistry_nameAgeRegistry wn wa :
  wfRegistry (nameAgeRegistry (H := asciiLib) wn wa).
Proof. do 2 apply wfRegistry_Register. apply wfRegistry_New. Qed.

Lemma X2_witness :
  0 <= Width (nameField (H := asciiLib) 10) ∧
  match write (makeWriter (nameField (H := asciiLib) 10) false) [] alice [] with
  | Ok (line', _) => ∃ out, line' = [] ++ out ∧ blen out = 10
  | _ => False
  end.
Proof.
  split; [discriminate|].
  pose proof (X2_column_fixed_width (H := asciiLib) (nameField 10) alice [] []
                ltac:(discriminate)) as Hx.
  exact Hx.
Defined.

Lemma X3_witness :
  ∃ p,
    CompileWithOptions (H := asciiLib) 1 (nameAgeRegistry 10 4) "name,age"
      paddedOptions [] = Ok p ∧
    blen (header p) = 16 ∧
    ∀ v tmp line s tmp' line',
      FormatRow p v tmp line = Ok (s, tmp', line') -> len s = blen (header p).
Proof.
  eexists. split; [reflexivity|]. split; [reflexivity|].
  apply (X3_rows_align_with_header (H := asciiLib) 1 (nameAgeRegistry 10 4)
           "name,age" paddedOptions [] _ eq_refl eq_refl eq_refl eq_refl).
Defined.

Lemma X4_witness :
  ∃ p,
    CompileWithOptions (H := asciiLib) 1 (nameAgeRegistry 10 4) "name,age"
      defaultOptions [] = Ok p ∧
    length (underline p) = length (header p) ∧
    underline p !! 0%nat = Some "-"%char ∧
    underline p !! 4%nat = Some " "%char.
Proof.
  eexists. split; [reflexivity|].
  destruct (X4_underline_matches_header (H := asciiLib) 1
              (nameAgeRegistry 10 4) "name,age" defaultOptions [] _ eq_refl)
    as [Hu _].
  destruct (Hu eq_refl) as [Hl Hc]. split; [exact Hl|].
  split; [exact (Hc 0%nat "N"%char eq_refl)|exact (Hc 4%nat " "%char eq_refl)].
Defined.

Lemma X6_witness :
  ∃ f,
    get (H := asciiLib) (nameAgeRegistry 10 4) "NAME" = Some f ∧
    fields (nameAgeRegistry 10 4) !! Name f = Some f ∧
    ToLower (Name f) = ToLower "NAME" ∧
    get (H := asciiLib) (nameAgeRegistry 10 4) "nom" = None.
Proof.
  eexists. split; [reflexivity|].
  destruct (X6_get_sound_and_complete (H := asciiLib) (nameAgeRegistry 10 4)
              "NAME" (wfRegistry_nameAgeRegistry 10 4)) as [Hs _].
  destruct (Hs _ eq_refl) as [Hf Hl].
  split; [exact Hf|]. split; [exact Hl|]. reflexivity.
Defined.

Lemma X8_witness :
  get (H := asciiLib)
    (mutate (MRegister
               (FieldBuilder_Width 3 (Registry_Field "age" "A" "changed")))
            (nameAgeRegistry 10 4)) "Name" =
  get (nameAgeRegistry 10 4) "Name".
Proof.
  apply (X8_mutation_frame (H := asciiLib)); [apply wfRegistry_nameAgeRegistry|].
  intros b [= <-]. discriminate.
Defined.

Lemma X12_witness :
  CompileWithOptions (H := asciiLib) 1 (nameAgeRegistry 10 4) "name,@nope"
    defaultOptions [] = Err (UnknownCollection "nope") ∧
  CompileWithOptions (H := asciiLib) 1 (nameAgeRegistry 10 4) "name, xyz"
    defaultOptions [] = Err (UnknownField "xyz").
Proof.
  split.
  - apply (proj1 (X12_unknown_names (H := asciiLib) (nameAgeRegistry 10 4) 0
                    "name,@nope" defaultOptions [] ["name"] "@nope" [] _ []
                    "@nope" eq_refl eq_refl eq_refl));
      [reflexivity|discriminate|reflexivity].
  - apply (proj2 (X12_unknown_names (H := asciiLib) (nameAgeRegistry 10 4) 0
                    "name, xyz" defaultOptions [] ["name"] " xyz" [] _ []
                    "xyz" eq_refl eq_refl eq_refl));
      [discriminate|reflexivity|reflexivity|reflexivity].
Defined.

Lemma X13_witness :
  ∃ p,
    CompileWithOptions (H := asciiLib) 1 basicRegistry "name,age"
      defaultOptions [] = Ok p ∧
    CompileWithOptions (H := asciiLib) 2 basicRegistry "@basic"
      defaultOptions [] = Ok p.
Proof.
  eexists. split; [reflexivity|].
  apply (proj2 (X13_reference_is_its_default_spec (H := asciiLib)
                  basicRegistry "basic" "name,age" eq_refl
                  ltac:(discriminate) eq_refl eq_refl)).
  reflexivity.
Defined.

Lemma X15_witness :
  ∃ p c noPad,
    CompileWithOptions (H := asciiLib) 1 (nameAgeRegistry 10 4) "name:20,age"
      defaultOptions [] = Ok p ∧
    columns p !! 0%nat = Some c ∧
    c = makeWriter (setWidth (nameField 10) 20) noPad ∧
    width c = 20.
Proof.
  eexists.
  destruct (X15_width_override (H := asciiLib) (nameAgeRegistry 10 4) 0
              "name:20,age" defaultOptions [] [] "name:20" ["age"] [] []
              "name:20" 4%nat 20 _ _ eq_refl eq_refl eq_refl eq_refl eq_refl
              eq_refl eq_refl eq_refl eq_refl) as (c & noPad & Hc & Heq & Hw).
  exists c, noPad. split; [reflexivity|]. split; [exact Hc|].
  split; [exact Heq|exact Hw].
Defined.

Lemma X16_witness :
  ∃ p,
    CompileWithOptions (H := asciiLib) 1 (nameAgeRegistry 10 4) "name,age"
      defaultOptions [] = Ok p ∧
    (res ← FormatRow p alice (list_ascii_of_string "old") (list_ascii_of_string "stale row");
     Ok (res : string * bytes * bytes).1.1) =
    (res ← FormatRow p alice [] []; Ok (res : string * bytes * bytes).1.1).
Proof.
  eexists. split; [reflexivity|].
  apply (X16_row_independent_of_buffers (H := asciiLib) 1
           (nameAgeRegistry 10 4) "name,age" defaultOptions [] _ eq_refl).
Defined.

Lemma X17_witness :
  CompileWithOptions (H := asciiLib) 1 (nameRegistry (-1)) "name"
    defaultOptions [] = Panic.
Proof.
  apply (proj2 (X17_compile_panics_iff_negative_width (H := asciiLib) 1
                  (nameRegistry (-1)) "name" defaultOptions [])).
  split; [reflexivity|]. eexists _, _. split; [reflexivity|].
  apply Exists_cons_hd. reflexivity.
Defined.

Lemma X21_witness :
  CompileWithOptions (H := asciiLib) 2 basicRegistry "@default,age"
    defaultOptions [7%nat] =
  CompileWithOptions (H := asciiLib) 2 basicRegistry "@default,age"
    defaultOptions [].
Proof.
  apply (X21_single_default_is_deterministic (H := asciiLib) basicRegistry 2
           "@default,age" defaultOptions [7%nat] []).
  vm_compute. lia.
Defined.
